(** * GameClient: a shallow embedding of [src/game.js]

    The browser client keeps one mutable [GameClient] object and reacts to
    keyboard events, server messages, image-load callbacks and timeouts.
    Here the object is a record that every handler takes and returns; the
    calls made on the 2D canvas context are the list a render pass returns,
    and the clock and the pending [setTimeout] callbacks are two more fields
    of the record.

    Numbers.  JavaScript numbers are modelled as exact rationals ([Q]):
    NaN, the infinities and rounding are outside the model.  [Date.now()]
    and timer deadlines are integer milliseconds ([Z]).  The canvas
    dimensions are DOM integers ([Z]).

    Objects used as dictionaries ([players], [avatars], [activeEmotes],
    [avatarImages], [movementKeys]) are [gmap]s keyed by strings; the
    enumeration order of [for ... in] is therefore the map's own order and
    not JavaScript's insertion order.

    Property reads.  A read [obj[key]] of a plain object also finds the
    members every object inherits from [Object.prototype].  Where such a
    read decides what the input mapper, the world state store or the
    asset cache does ([movementKeys[code]], [players[id]], the guard
    [avatarImages[avatar.name]] of the loader) it is modelled by [jsRead],
    which tells own entries from inherited members.  The reads of the
    renderer are modelled on own entries only: an inherited member read
    there carries no frames and no start time, and the arithmetic on it
    gives NaN, which the rational numbers of this model do not have.  An
    assignment under the key ["__proto__"] is modelled as an ordinary
    entry. *)

From Stdlib Require Import ZArith QArith Qminmax Lia.
From stdpp Require Import gmap strings list fin_maps.

Open Scope string_scope.

(** ** Data model *)

(** [WebSocket.readyState]. *)
Inductive ReadyState := CONNECTING | OPEN | CLOSING | CLOSED.

(** An avatar definition as the server sends it: frame sources per direction. *)
Record Avatar := {
  av_name : string;
  av_frames : gmap string (list string)
}.

(** The payloads handed to [socket.send] (before [JSON.stringify]). *)
Inductive OutMsg :=
| OutJoin (username : string) (avatar : option Avatar)
| OutMove (direction : string)
| OutMoveMember (member : string)   (* direction is [Object.prototype[member]] *)
| OutStop
| OutEmote (emote : string)
| OutChat (message : string).

(** The socket object: its state and everything sent through it so far. *)
Record Socket := {
  readyState : ReadyState;
  sent : list OutMsg
}.

(** A decoded image; [img_complete] is set once its [onload] has run. *)
Record Image := {
  img_src : string;
  img_complete : bool;
  img_width : Q;
  img_height : Q
}.

Record Player := {
  pl_id : string;
  pl_username : string;
  pl_x : Q;
  pl_y : Q;
  pl_facing : string;
  pl_animationFrame : option nat;   (* [undefined] is [None] *)
  pl_avatar : string
}.

Record Camera := {
  cam_x : Q;
  cam_y : Q;
  cam_width : Q;
  cam_height : Q
}.

Record Emote := {
  em_type : string;
  em_startTime : Z
}.

Inductive ChatType := own | other | system.

(** [timestamp] is the instant the entry was made; the source keeps its
    hour:minute rendering in the browser's locale. *)
Record ChatMessage := {
  cm_username : string;
  cm_message : string;
  cm_timestamp : Z;
  cm_type : ChatType
}.

(** A pending [setTimeout] of [showEmote]: when it is due and whose emote
    its callback deletes. *)
Record Timer := {
  tm_due : Z;
  tm_playerId : string
}.

(** Frames already decoded: avatar name, then direction, then frame index.
    Frames arrive one by one, so the innermost array is sparse. *)
Abbreviation FrameTable := (gmap string (gmap string (gmap nat Image))).

Record GameClient := {
  canvas_width : Z;
  canvas_height : Z;
  worldImage : option Image;          (* [null] is [None] *)
  socket : option Socket;
  myPlayerId : option string;
  players : gmap string Player;
  avatars : gmap string Avatar;
  myPosition : Q * Q;
  camera : Camera;
  avatarImages : FrameTable;
  customAvatar : option Avatar;
  activeEmotes : gmap string Emote;
  chatMessages : list ChatMessage;
  pressedKeys : gset string;
  now : Z;                            (* [Date.now()] *)
  timers : list Timer                 (* pending timeouts, oldest first *)
}.

(** Constants the constructor stores in fields it never reassigns. *)
Definition worldSize : Q := 2048.
Definition emoteDuration : Z := 3000.
Definition maxChatMessages : nat := 50.

Definition movementKeys : gmap string string :=
  {[ "ArrowUp" := "up"; "ArrowDown" := "down";
     "ArrowLeft" := "left"; "ArrowRight" := "right" ]}.

(** Field updates. *)
Definition set_canvas (w h : Z) (s : GameClient) : GameClient :=
  {| canvas_width := w; canvas_height := h; worldImage := worldImage s;
     socket := socket s; myPlayerId := myPlayerId s; players := players s;
     avatars := avatars s; myPosition := myPosition s; camera := camera s;
     avatarImages := avatarImages s; customAvatar := customAvatar s;
     activeEmotes := activeEmotes s; chatMessages := chatMessages s;
     pressedKeys := pressedKeys s; now := now s; timers := timers s |}.

Definition set_worldImage (v : option Image) (s : GameClient) : GameClient :=
  {| canvas_width := canvas_width s; canvas_height := canvas_height s;
     worldImage := v;
     socket := socket s; myPlayerId := myPlayerId s; players := players s;
     avatars := avatars s; myPosition := myPosition s; camera := camera s;
     avatarImages := avatarImages s; customAvatar := customAvatar s;
     activeEmotes := activeEmotes s; chatMessages := chatMessages s;
     pressedKeys := pressedKeys s; now := now s; timers := timers s |}.

Definition set_socket (v : option Socket) (s : GameClient) : GameClient :=
  {| canvas_width := canvas_width s; canvas_height := canvas_height s;
     worldImage := worldImage s;
     socket := v; myPlayerId := myPlayerId s; players := players s;
     avatars := avatars s; myPosition := myPosition s; camera := camera s;
     avatarImages := avatarImages s; customAvatar := customAvatar s;
     activeEmotes := activeEmotes s; chatMessages := chatMessages s;
     pressedKeys := pressedKeys s; now := now s; timers := timers s |}.

Definition set_myPlayerId (v : option string) (s : GameClient) : GameClient :=
  {| canvas_width := canvas_width s; canvas_height := canvas_height s;
     worldImage := worldImage s;
     socket := socket s; myPlayerId := v; players := players s;
     avatars := avatars s; myPosition := myPosition s; camera := camera s;
     avatarImages := avatarImages s; customAvatar := customAvatar s;
     activeEmotes := activeEmotes s; chatMessages := chatMessages s;
     pressedKeys := pressedKeys s; now := now s; timers := timers s |}.

Definition set_players (v : gmap string Player) (s : GameClient) : GameClient :=
  {| canvas_width := canvas_width s; canvas_height := canvas_height s;
     worldImage := worldImage s;
     socket := socket s; myPlayerId := myPlayerId s; players := v;
     avatars := avatars s; myPosition := myPosition s; camera := camera s;
     avatarImages := avatarImages s; customAvatar := customAvatar s;
     activeEmotes := activeEmotes s; chatMessages := chatMessages s;
     pressedKeys := pressedKeys s; now := now s; timers := timers s |}.

Definition set_avatars (v : gmap string Avatar) (s : GameClient) : GameClient :=
  {| canvas_width := canvas_width s; canvas_height := canvas_height s;
     worldImage := worldImage s;
     socket := socket s; myPlayerId := myPlayerId s; players := players s;
     avatars := v; myPosition := myPosition s; camera := camera s;
     avatarImages := avatarImages s; customAvatar := customAvatar s;
     activeEmotes := activeEmotes s; chatMessages := chatMessages s;
     pressedKeys := pressedKeys s; now := now s; timers := timers s |}.

Definition set_myPosition (v : Q * Q) (s : GameClient) : GameClient :=
  {| canvas_width := canvas_width s; canvas_height := canvas_height s;
     worldImage := worldImage s;
     socket := socket s; myPlayerId := myPlayerId s; players := players s;
     avatars := avatars s; myPosition := v; camera := camera s;
     avatarImages := avatarImages s; customAvatar := customAvatar s;
     activeEmotes := activeEmotes s; chatMessages := chatMessages s;
     pressedKeys := pressedKeys s; now := now s; timers := timers s |}.

Definition set_camera (v : Camera) (s : GameClient) : GameClient :=
  {| canvas_width := canvas_width s; canvas_height := canvas_height s;
     worldImage := worldImage s;
     socket := socket s; myPlayerId := myPlayerId s; players := players s;
     avatars := avatars s; myPosition := myPosition s; camera := v;
     avatarImages := avatarImages s; customAvatar := customAvatar s;
     activeEmotes := activeEmotes s; chatMessages := chatMessages s;
     pressedKeys := pressedKeys s; now := now s; timers := timers s |}.

Definition set_avatarImages (v : FrameTable) (s : GameClient) : GameClient :=
  {| canvas_width := canvas_width s; canvas_height := canvas_height s;
     worldImage := worldImage s;
     socket := socket s; myPlayerId := myPlayerId s; players := players s;
     avatars := avatars s; myPosition := myPosition s; camera := camera s;
     avatarImages := v; customAvatar := customAvatar s;
     activeEmotes := activeEmotes s; chatMessages := chatMessages s;
     pressedKeys := pressedKeys s; now := now s; timers := timers s |}.

Definition set_activeEmotes (v : gmap string Emote) (s : GameClient) : GameClient :=
  {| canvas_width := canvas_width s; canvas_height := canvas_height s;
     worldImage := worldImage s;
     socket := socket s; myPlayerId := myPlayerId s; players := players s;
     avatars := avatars s; myPosition := myPosition s; camera := camera s;
     avatarImages := avatarImages s; customAvatar := customAvatar s;
     activeEmotes := v; chatMessages := chatMessages s;
     pressedKeys := pressedKeys s; now := now s; timers := timers s |}.

Definition set_chatMessages (v : list ChatMessage) (s : GameClient) : GameClient :=
  {| canvas_width := canvas_width s; canvas_height := canvas_height s;
     worldImage := worldImage s;
     socket := socket s; myPlayerId := myPlayerId s; players := players s;
     avatars := avatars s; myPosition := myPosition s; camera := camera s;
     avatarImages := avatarImages s; customAvatar := customAvatar s;
     activeEmotes := activeEmotes s; chatMessages := v;
     pressedKeys := pressedKeys s; now := now s; timers := timers s |}.

Definition set_pressedKeys (v : gset string) (s : GameClient) : GameClient :=
  {| canvas_width := canvas_width s; canvas_height := canvas_height s;
     worldImage := worldImage s;
     socket := socket s; myPlayerId := myPlayerId s; players := players s;
     avatars := avatars s; myPosition := myPosition s; camera := camera s;
     avatarImages := avatarImages s; customAvatar := customAvatar s;
     activeEmotes := activeEmotes s; chatMessages := chatMessages s;
     pressedKeys := v; now := now s; timers := timers s |}.

Definition set_now (v : Z) (s : GameClient) : GameClient :=
  {| canvas_width := canvas_width s; canvas_height := canvas_height s;
     worldImage := worldImage s;
     socket := socket s; myPlayerId := myPlayerId s; players := players s;
     avatars := avatars s; myPosition := myPosition s; camera := camera s;
     avatarImages := avatarImages s; customAvatar := customAvatar s;
     activeEmotes := activeEmotes s; chatMessages := chatMessages s;
     pressedKeys := pressedKeys s; now := v; timers := timers s |}.

Definition set_timers (v : list Timer) (s : GameClient) : GameClient :=
  {| canvas_width := canvas_width s; canvas_height := canvas_height s;
     worldImage := worldImage s;
     socket := socket s; myPlayerId := myPlayerId s; players := players s;
     avatars := avatars s; myPosition := myPosition s; camera := camera s;
     avatarImages := avatarImages s; customAvatar := customAvatar s;
     activeEmotes := activeEmotes s; chatMessages := chatMessages s;
     pressedKeys := pressedKeys s; now := now s; timers := v |}.

(** ** Connection channel *)

(** [this.socket && this.socket.readyState === WebSocket.OPEN]. *)
Definition socketOpen (s : GameClient) : bool :=
  match socket s with
  | Some {| readyState := OPEN |} => true
  | _ => false
  end.

(** [this.socket.send(JSON.stringify(message))]; a missing socket cannot be
    sent on, and every caller tests [socketOpen] first. *)
Definition socketSend (m : OutMsg) (s : GameClient) : GameClient :=
  match socket s with
  | Some k => set_socket (Some {| readyState := readyState k; sent := (sent k ++ [m])%list |}) s
  | None => s
  end.

(** All messages sent so far. *)
Definition outbox (s : GameClient) : list OutMsg :=
  match socket s with
  | Some k => sent k
  | None => []
  end.

Definition sendMoveCommand (direction : string) (s : GameClient) : GameClient :=
  if negb (socketOpen s) then s
  else socketSend (OutMove direction) s.

Definition sendStopCommand (s : GameClient) : GameClient :=
  if negb (socketOpen s) then s
  else socketSend OutStop s.

(** [sendMoveCommand] called with the member of [Object.prototype] of
    that name as its direction. *)
Definition sendMoveCommandMember (member : string) (s : GameClient) : GameClient :=
  if negb (socketOpen s) then s
  else socketSend (OutMoveMember member) s.

(** ** Property reads *)

(** The names every plain object inherits from [Object.prototype]; the
    value under each of them is a function or an object, hence truthy. *)
Definition objectPrototypeMembers : list string :=
  [ "constructor"; "hasOwnProperty"; "isPrototypeOf"; "propertyIsEnumerable";
    "toLocaleString"; "toString"; "valueOf"; "__proto__";
    "__defineGetter__"; "__defineSetter__"; "__lookupGetter__"; "__lookupSetter__" ].

Definition inheritedName (key : string) : bool :=
  existsb (String.eqb key) objectPrototypeMembers.

(** What [obj[key]] finds. *)
Inductive Read (A : Type) :=
| Own (value : A)
| Inherited
| Undefined.

Arguments Own {A} value.
Arguments Inherited {A}.
Arguments Undefined {A}.

Definition jsRead {A : Type} (obj : gmap string A) (key : string) : Read A :=
  match obj !! key with
  | Some value => Own value
  | None => if inheritedName key then Inherited else Undefined
  end.

(** ** Input mapper *)

Definition handleKeyDown (code : string) (s : GameClient) : GameClient :=
  if String.prefix "Digit" code then s
  else match jsRead movementKeys code with
       | Undefined => s
       | Own direction =>
           sendMoveCommand direction (set_pressedKeys (pressedKeys s ∪ {[ code ]}) s)
       | Inherited =>
           sendMoveCommandMember code (set_pressedKeys (pressedKeys s ∪ {[ code ]}) s)
       end.

Definition handleKeyUp (code : string) (s : GameClient) : GameClient :=
  match jsRead movementKeys code with
  | Undefined => s
  | Own _ | Inherited =>
      let s1 := set_pressedKeys (pressedKeys s ∖ {[ code ]}) s in
      if decide (size (pressedKeys s1) = 0%nat) then sendStopCommand s1 else s1
  end.

(** ** Effect tracker (emotes) *)

(** The property key an id turns into: [activeEmotes[null]] is the key
    ["null"]. *)
Definition keyOf (playerId : option string) : string :=
  match playerId with
  | Some i => i
  | None => "null"
  end.

(** [showEmote]: store the record, schedule the removal.  The closing
    [this.render()] only paints (see [render] below). *)
Definition showEmote (playerId emoteType : string) (s : GameClient) : GameClient :=
  let s1 :=
    set_activeEmotes
      (<[ playerId := {| em_type := emoteType; em_startTime := now s |} ]>
         (activeEmotes s)) s in
  set_timers
    (timers s1 ++ [ {| tm_due := (now s + emoteDuration)%Z; tm_playerId := playerId |} ])%list
    s1.

(** The arrow function handed to [setTimeout] in [showEmote]. *)
Definition timeoutCallback (playerId : string) (s : GameClient) : GameClient :=
  set_activeEmotes (delete playerId (activeEmotes s)) s.

Definition sendEmote (emoteType : string) (s : GameClient) : GameClient :=
  if negb (socketOpen s) then s
  else showEmote (keyOf (myPlayerId s)) emoteType (socketSend (OutEmote emoteType) s).

(** The second [keydown] listener, installed by [setupEmotes]. *)
Definition emoteShortcut (code : string) (s : GameClient) : GameClient :=
  let s1 := if String.eqb code "Digit1" then sendEmote "wave" s else s in
  let s2 := if String.eqb code "Digit2" then sendEmote "dance" s1 else s1 in
  let s3 := if String.eqb code "Digit3" then sendEmote "jump" s2 else s2 in
  let s4 := if String.eqb code "Digit4" then sendEmote "heart" s3 else s3 in
  let s5 := if String.eqb code "Digit5" then sendEmote "laugh" s4 else s4 in
  if String.eqb code "Digit6" then sendEmote "thumbsup" s5 else s5.

(** ** Clock and timeouts *)

(** The clock moves to [t] and every timeout due by then runs, oldest
    first.  All timeouts have the same delay, so the pending list is kept
    in deadline order as long as the clock never goes back. *)
Definition advanceTo (t : Z) (s : GameClient) : GameClient :=
  let fired := List.filter (fun tm => (tm_due tm <=? t)%Z) (timers s) in
  let rest := List.filter (fun tm => negb (tm_due tm <=? t)%Z) (timers s) in
  let s1 := fold_left (fun st tm => timeoutCallback (tm_playerId tm) st) fired s in
  set_now t (set_timers rest s1).

(** Deadlines of the removals still pending for one player. *)
Definition pendingRemovals (playerId : string) (s : GameClient) : list Z :=
  map tm_due (List.filter (fun tm => String.eqb (tm_playerId tm) playerId) (timers s)).

(** ** Chat log *)

Definition addChatMessage (username message : string) (type : ChatType)
    (s : GameClient) : GameClient :=
  let chatMessage :=
    {| cm_username := username; cm_message := message;
       cm_timestamp := now s; cm_type := type |} in
  let pushed := (chatMessages s ++ [chatMessage])%list in
  set_chatMessages
    (if (maxChatMessages <? length pushed)%nat then tail pushed else pushed) s.

Definition sendChatMessage (message : string) (s : GameClient) : GameClient :=
  if negb (socketOpen s) then s
  else addChatMessage "You" message own (socketSend (OutChat message) s).

(** ** Camera *)

(** When the local id names an inherited member and no entity, the source
    stores that member's [x] and [y], both [undefined]; the rational
    focus cannot hold them, so this case is left as it was and every
    statement about the focus excludes it. *)
Definition updateMyPosition (s : GameClient) : GameClient :=
  match myPlayerId s with
  | Some i =>
      if String.eqb i "" then s
      else match jsRead (players s) i with
           | Own p => set_myPosition (pl_x p, pl_y p) s
           | Inherited => s
           | Undefined => s
           end
  | None => s
  end.

Definition updateCamera (s : GameClient) : GameClient :=
  let width := inject_Z (canvas_width s) in
  let height := inject_Z (canvas_height s) in
  let x := (fst (myPosition s) - width / 2)%Q in
  let y := (snd (myPosition s) - height / 2)%Q in
  set_camera
    {| cam_x := Qmax 0 (Qmin x (worldSize - width));
       cam_y := Qmax 0 (Qmin y (worldSize - height));
       cam_width := width;
       cam_height := height |} s.

(** ** Asset cache *)

(** The loop over the stored directions: each direction gets its empty
    frame array, then the avatar's frames for it are walked to start
    their decoding.  A definition without frames for a direction makes
    that walk throw a TypeError, which ends the loop with the direction's
    array already in place.  The result is the entry left behind and
    whether the loop threw. *)
Fixpoint startDirections (frames : gmap string (list string)) (directions : list string)
    (entry : gmap string (gmap nat Image)) : gmap string (gmap nat Image) * bool :=
  match directions with
  | [] => (entry, false)
  | direction :: rest =>
      let entry' := <[ direction := ∅ ]> entry in
      match frames !! direction with
      | None => (entry', true)
      | Some _ => startDirections frames rest entry'
      end
  end.

Definition storedDirections : list string := [ "north"; "south"; "east" ].

(** The state [loadAvatarImage] leaves behind, also when it throws.  The
    guard [if (this.avatarImages[avatar.name]) return] also passes for a
    name that every object inherits: such an avatar never gets an entry. *)
Definition loadAvatarImage (avatar : Avatar) (s : GameClient) : GameClient :=
  match jsRead (avatarImages s) (av_name avatar) with
  | Own _ | Inherited => s
  | Undefined =>
      set_avatarImages
        (<[ av_name avatar :=
              fst (startDirections (av_frames avatar) storedDirections ∅) ]>
           (avatarImages s)) s
  end.

(** Whether [loadAvatarImage] throws. *)
Definition loadAvatarImageThrows (avatar : Avatar) (s : GameClient) : bool :=
  match jsRead (avatarImages s) (av_name avatar) with
  | Own _ | Inherited => false
  | Undefined => snd (startDirections (av_frames avatar) storedDirections ∅)
  end.

(** The loop of [loadAvatarImages]: it ends at the first avatar whose load
    throws. *)
Definition loadAvatarImagesRun (s : GameClient) : GameClient * bool :=
  map_fold
    (fun _ avatar (acc : GameClient * bool) =>
       if snd acc then acc
       else (loadAvatarImage avatar (fst acc), loadAvatarImageThrows avatar (fst acc)))
    (s, false) (avatars s).

Definition loadAvatarImages (s : GameClient) : GameClient := fst (loadAvatarImagesRun s).

Definition loadAvatarImagesThrows (s : GameClient) : bool := snd (loadAvatarImagesRun s).

(** [img.onload] of one frame started by [loadAvatarImage]. *)
Definition frameOnload (name direction : string) (index : nat) (img : Image)
    (s : GameClient) : GameClient :=
  set_avatarImages
    (alter (alter (fun frames => <[ index := img ]> frames) direction) name
       (avatarImages s)) s.

(** ** World state store: inbound messages *)

Inductive InMsg :=
| InJoinGame (success : bool) (playerId : option string)
    (roster : gmap string Player) (looks : gmap string Avatar) (error : string)
| InPlayersMoved (moved : gmap string Player)
| InPlayerJoined (player : Player) (avatar : Avatar)
| InPlayerLeft (playerId : string)
| InEmote (playerId : string) (emote : string)
| InChat (username message : string)
| InOther (action : string).

(** A TypeError thrown by [loadAvatarImage] ends the handler where it is;
    [socket.onmessage] catches it and logs, so the state is the one
    reached at the throw. *)
Definition handleMessage (message : InMsg) (s : GameClient) : GameClient :=
  match message with
  | InJoinGame true playerId roster looks _ =>
      let s1 := set_avatars looks (set_players roster (set_myPlayerId playerId s)) in
      if loadAvatarImagesThrows s1 then loadAvatarImages s1
      else
        addChatMessage "System" "Successfully joined the game!" system
          (updateCamera (updateMyPosition (loadAvatarImages s1)))
  | InJoinGame false _ _ _ error =>
      addChatMessage "System" ("Failed to join game: " ++ error) system s
  | InPlayersMoved moved =>
      (* [{ ...this.players, ...message.players }]: the later spread wins *)
      updateCamera (updateMyPosition (set_players (moved ∪ players s) s))
  | InPlayerJoined player avatar =>
      let s1 := set_players (<[ pl_id player := player ]> (players s)) s in
      let s2 := set_avatars (<[ av_name avatar := avatar ]> (avatars s1)) s1 in
      if loadAvatarImageThrows avatar s2 then loadAvatarImage avatar s2
      else
        addChatMessage "System" (pl_username player ++ " joined the game!") system
          (loadAvatarImage avatar s2)
  | InPlayerLeft playerId =>
      let leftPlayer := jsRead (players s) playerId in
      let s1 := set_players (delete playerId (players s)) s in
      let s2 := set_activeEmotes (delete playerId (activeEmotes s1)) s1 in
      match leftPlayer with
      | Own p => addChatMessage "System" (pl_username p ++ " left the game.") system s2
      | Inherited =>
          (* an inherited member has no [username]: the template prints
             [undefined] *)
          addChatMessage "System" "undefined left the game." system s2
      | Undefined => s2
      end
  | InEmote playerId emote => showEmote playerId emote s
  | InChat username message => addChatMessage username message other s
  | InOther _ => s
  end.

(** ** Renderer *)

(** A vertical text position.  [Bouncing y p] stands for
    [y + Math.sin(p * Math.PI * 4) * 5], which is not a rational number. *)
Inductive YCoord :=
| Flat (y : Q)
| Bouncing (y : Q) (progress : Q).

(** The calls a render pass makes on the 2D context, in order. *)
Inductive CtxCall :=
| ClearRect (x y w h : Q)
| DrawImageSub (img : Image) (sx sy sw sh dx dy dw dh : Q)
| DrawImage (img : Image) (dx dy dw dh : Q)
| Save
| Restore
| Scale (sx sy : Q)
| SetGlobalAlpha (a : Q)
| SetFillStyle (v : string)
| SetStrokeStyle (v : string)
| SetLineWidth (v : Q)
| SetFont (v : string)
| SetTextAlign (v : string)
| StrokeText (text : string) (x : Q) (y : YCoord)
| FillText (text : string) (x : Q) (y : YCoord).

Definition Qltb (a b : Q) : bool := negb (Qle_bool b a).

Definition emoteEmojis : gmap string string :=
  {[ "wave" := "ðŸ‘‹"; "dance" := "ðŸ’ƒ"; "jump" := "ðŸ¦˜";
     "heart" := "â¤ï¸"; "laugh" := "ðŸ˜‚"; "thumbsup" := "ðŸ‘" ]}.

Definition drawEmote (playerId : string) (screenX screenY : Q) (s : GameClient)
    : list CtxCall :=
  match activeEmotes s !! playerId with
  | None => []
  | Some emote =>
      let elapsed := inject_Z (now s - em_startTime emote) in
      let progress := (elapsed / inject_Z emoteDuration)%Q in
      let alpha := Qmax 0 (1 - progress) in
      let emoji := default "ðŸ˜Š" (emoteEmojis !! em_type emote) in
      [ Save;
        SetGlobalAlpha alpha;
        SetFont "24px Arial";
        SetTextAlign "center";
        SetFillStyle "rgba(0,0,0,0.5)";
        FillText emoji (screenX + 2) (Bouncing (screenY + 2) progress);
        SetFillStyle "white";
        FillText emoji screenX (Bouncing screenY progress);
        Restore ]
  end.

Definition drawAvatar (player : Player) (s : GameClient) : list CtxCall :=
  let screenX := (pl_x player - cam_x (camera s))%Q in
  let screenY := (pl_y player - cam_y (camera s))%Q in
  if Qltb screenX (-50) || Qltb (cam_width (camera s) + 50) screenX
     || Qltb screenY (-50) || Qltb (cam_height (camera s) + 50) screenY
  then []
  else
    match avatars s !! pl_avatar player, avatarImages s !! pl_avatar player with
    | Some _, Some directions =>
        let direction := pl_facing player in
        let frameIndex := default 0%nat (pl_animationFrame player) in
        let frameDirection := if String.eqb direction "west" then "east" else direction in
        match directions !! frameDirection with
        | None => []
        | Some frames =>
            match frames !! frameIndex with
            | None => []
            | Some avatarImg =>
                let avatarSize := 32%Q in
                let aspectRatio := (img_width avatarImg / img_height avatarImg)%Q in
                let width := (avatarSize * aspectRatio)%Q in
                let height := avatarSize in
                let textY := (screenY - height / 2 - 5)%Q in
                ([ Save ] ++
                 (if String.eqb direction "west"
                  then [ Scale (-1) 1;
                         DrawImage avatarImg (- screenX - width / 2)
                           (screenY - height / 2) width height ]
                  else [ DrawImage avatarImg (screenX - width / 2)
                           (screenY - height / 2) width height ]) ++
                 [ Restore;
                   Save;
                   SetFillStyle "white";
                   SetStrokeStyle "black";
                   SetLineWidth 2;
                   SetFont "12px Arial";
                   SetTextAlign "center";
                   StrokeText (pl_username player) screenX (Flat textY);
                   FillText (pl_username player) screenX (Flat textY);
                   Restore ] ++
                 drawEmote (pl_id player) screenX (screenY - height / 2 - 20) s)%list
            end
        end
    | _, _ => []
    end.

Definition drawAvatars (s : GameClient) : list CtxCall :=
  flat_map (fun entry => drawAvatar (snd entry) s) (map_to_list (players s)).

(** One render pass: the context calls it makes.  Handlers that end in
    [this.render()] paint [render] of the state they return; painting
    never feeds back into the state. *)
Definition render (s : GameClient) : list CtxCall :=
  match worldImage s with
  | None => []
  | Some img =>
      ClearRect 0 0 (inject_Z (canvas_width s)) (inject_Z (canvas_height s))
      :: DrawImageSub img
           (cam_x (camera s)) (cam_y (camera s))
           (cam_width (camera s)) (cam_height (camera s))
           0 0 (cam_width (camera s)) (cam_height (camera s))
      :: drawAvatars s
  end.

(** ** What the context does with the calls

    The Canvas 2D rules the renderer relies on: [save] and [restore] push
    and pop the current transform, [scale] multiplies it, and every drawing
    call is painted through the transform in force when it is made. *)

Record Matrix := {
  m_a : Q; m_b : Q; m_c : Q; m_d : Q; m_e : Q; m_f : Q
}.

Definition identity : Matrix :=
  {| m_a := 1; m_b := 0; m_c := 0; m_d := 1; m_e := 0; m_f := 0 |}.

Definition scaleBy (sx sy : Q) (m : Matrix) : Matrix :=
  {| m_a := m_a m * sx; m_b := m_b m * sx;
     m_c := m_c m * sy; m_d := m_d m * sy;
     m_e := m_e m; m_f := m_f m |}.

(** Surface coordinates of the user-space point [(u, v)]. *)
Definition deviceX (m : Matrix) (u v : Q) : Q := m_a m * u + m_c m * v + m_e m.
Definition deviceY (m : Matrix) (u v : Q) : Q := m_b m * u + m_d m * v + m_f m.

Definition isDrawing (c : CtxCall) : bool :=
  match c with
  | ClearRect _ _ _ _ | DrawImageSub _ _ _ _ _ _ _ _ _ | DrawImage _ _ _ _ _
  | StrokeText _ _ _ | FillText _ _ _ => true
  | _ => false
  end.

(** The drawing calls of a call sequence, each with its transform. *)
Fixpoint paintFrom (current : Matrix) (stack : list Matrix) (calls : list CtxCall)
    : list (Matrix * CtxCall) :=
  match calls with
  | [] => []
  | Save :: rest => paintFrom current (current :: stack) rest
  | Restore :: rest =>
      match stack with
      | [] => paintFrom current [] rest
      | top :: below => paintFrom top below rest
      end
  | Scale sx sy :: rest => paintFrom (scaleBy sx sy current) stack rest
  | c :: rest =>
      if isDrawing c then (current, c) :: paintFrom current stack rest
      else paintFrom current stack rest
  end.

Definition paint (calls : list CtxCall) : list (Matrix * CtxCall) :=
  paintFrom identity [] calls.

(** The first image among painted calls, with its transform and its
    destination rectangle. *)
Fixpoint firstImage (painted : list (Matrix * CtxCall))
    : option (Matrix * Image * (Q * Q * Q * Q)) :=
  match painted with
  | [] => None
  | (m, DrawImage img dx dy dw dh) :: _ => Some (m, img, (dx, dy, dw, dh))
  | _ :: rest => firstImage rest
  end.

(** The sprite of one avatar as painted. *)
Definition paintedSprite (calls : list CtxCall)
    : option (Matrix * Image * (Q * Q * Q * Q)) :=
  firstImage (paint calls).

(** ** Start-up and the remaining callbacks *)

Definition loadWorldMap (s : GameClient) : GameClient :=
  set_worldImage
    (Some {| img_src := "world.jpg"; img_complete := false;
             img_width := 0; img_height := 0 |}) s.

(** [worldImage.onload], with the decoded size. *)
Definition worldImageOnload (w h : Q) (s : GameClient) : GameClient :=
  match worldImage s with
  | Some img =>
      updateCamera
        (set_worldImage
           (Some {| img_src := img_src img; img_complete := true;
                    img_width := w; img_height := h |}) s)
  | None => updateCamera s
  end.

(** The [resize] listener, with the new [window.innerWidth] and
    [innerHeight]. *)
Definition onResize (innerWidth innerHeight : Z) (s : GameClient) : GameClient :=
  updateCamera (set_canvas innerWidth innerHeight s).

Definition joinGame (s : GameClient) : GameClient :=
  socketSend (OutJoin "Melvin" (customAvatar s)) s.

(** [socket.onopen]. *)
Definition socketOnopen (s : GameClient) : GameClient :=
  match socket s with
  | Some k => joinGame (set_socket (Some {| readyState := OPEN; sent := sent k |}) s)
  | None => s
  end.

(** The object as the constructor leaves it, before [init]. *)
Definition constructed (clock : Z) : GameClient :=
  {| canvas_width := 300; canvas_height := 150; worldImage := None;
     socket := None; myPlayerId := None; players := ∅; avatars := ∅;
     myPosition := (0%Q, 0%Q);
     camera := {| cam_x := 0; cam_y := 0; cam_width := 0; cam_height := 0 |};
     avatarImages := ∅; customAvatar := None; activeEmotes := ∅;
     chatMessages := []; pressedKeys := ∅; now := clock; timers := [] |}.

(** [init]: canvas sized to the window, map requested, welcome line added,
    connection started. *)
Definition init (innerWidth innerHeight : Z) (s : GameClient) : GameClient :=
  let s1 := set_canvas innerWidth innerHeight s in
  let s2 := loadWorldMap s1 in
  let s3 :=
    addChatMessage "System"
      "Welcome to the game! Type messages to chat with other players." system s2 in
  set_socket (Some {| readyState := CONNECTING; sent := [] |}) s3.

(** Both [keydown] listeners, in the order [init] installs them. *)
Definition onKeyDown (code : string) (s : GameClient) : GameClient :=
  emoteShortcut code (handleKeyDown code s).

(** ** Vocabulary of the properties *)

(** The clamp of the camera contract, as the specification words it:
    [v] held between the bounds [lo] and [hi]. *)
Definition clamp (v lo hi : Q) : Q :=
  if Qltb v lo then lo else if Qltb hi v then hi else v.

(** The facing values of an entity. *)
Definition facings : list string := [ "north"; "south"; "east"; "west" ].

(** The values of [movementKeys]. *)
Definition keyDirections : list string := [ "up"; "down"; "left"; "right" ].

(** The log entry [addChatMessage] builds at time [clock]. *)
Definition chatEntry (clock : Z) (entry : string * string * ChatType) : ChatMessage :=
  {| cm_username := fst (fst entry); cm_message := snd (fst entry);
     cm_timestamp := clock; cm_type := snd entry |}.

(** A run of chat inserts. *)
Definition insertAll (entries : list (string * string * ChatType)) (s : GameClient)
    : GameClient :=
  fold_left
    (fun st entry => addChatMessage (fst (fst entry)) (snd (fst entry)) (snd entry) st)
    entries s.


Definition withFacing (direction : string) (p : Player) : Player :=
  {| pl_id := pl_id p; pl_username := pl_username p; pl_x := pl_x p; pl_y := pl_y p;
     pl_facing := direction; pl_animationFrame := pl_animationFrame p;
     pl_avatar := pl_avatar p |}.

(** ** Scenarios *)

(** A client in an 800 x 600 window, started at time 0. *)
Definition freshClient : GameClient := init 800 600 (constructed 0).

(** The same client once the socket has opened. *)
Definition connectedClient : GameClient := socketOnopen freshClient.

(** A window larger than the world. *)
Definition hugeWindowClient : GameClient :=
  updateCamera (set_myPosition (1000%Q, 1000%Q) (set_canvas 4000 3000 freshClient)).

Definition eve : Player :=
  {| pl_id := "p1"; pl_username := "Eve"; pl_x := 100; pl_y := 120;
     pl_facing := "west"; pl_animationFrame := None; pl_avatar := "knight" |}.

Definition bob : Player :=
  {| pl_id := "p2"; pl_username := "Bob"; pl_x := 300; pl_y := 200;
     pl_facing := "south"; pl_animationFrame := Some 1%nat; pl_avatar := "knight" |}.

Definition knight : Avatar :=
  {| av_name := "knight";
     av_frames := {[ "north" := [ "n0.png" ]; "south" := [ "s0.png" ];
                     "east" := [ "e0.png" ] ]} |}.

Definition knightEast0 : Image :=
  {| img_src := "e0.png"; img_complete := true; img_width := 24; img_height := 32 |}.

(** Joined as Eve, with Bob in the roster and the knight's first east
    frame decoded; [world.jpg] is still loading. *)
Definition joinedWhileMapLoads : GameClient :=
  frameOnload "knight" "east" 0 knightEast0
    (handleMessage
       (InJoinGame true (Some "p1") {[ "p1" := eve; "p2" := bob ]}
          {[ "knight" := knight ]} "")
       connectedClient).


(** The same client after [world.jpg] has loaded. *)
Definition joinedClient : GameClient := worldImageOnload 2048 2048 joinedWhileMapLoads.

(** An emote for Eve at time 0 and another at time 1000. *)
Definition emoteTwice : GameClient :=
  showEmote "p1" "dance" (advanceTo 1000 (showEmote "p1" "wave" joinedClient)).

(** Fifty chat lines numbered from [first]. *)
Definition numberedLines (first : Z) : list ChatMessage :=
  map (fun i => {| cm_username := "Bob"; cm_message := "line";
                   cm_timestamp := first + Z.of_nat i; cm_type := other |})
      (seq 0 50).

(** [n] chat lines from Bob with the messages "A", "B", "C", ... *)
Definition letteredEntries (n : nat) : list (string * string * ChatType) :=
  map (fun i => ("Bob", String (Ascii.ascii_of_nat (65 + i)) EmptyString, other))
      (seq 0 n).

Definition fullChatClient : GameClient := set_chatMessages (numberedLines 0) connectedClient.

(** ** Avatar upload, socket close and the event loop *)

Definition set_customAvatar (v : option Avatar) (s : GameClient) : GameClient :=
  {| canvas_width := canvas_width s; canvas_height := canvas_height s;
     worldImage := worldImage s;
     socket := socket s; myPlayerId := myPlayerId s; players := players s;
     avatars := avatars s; myPosition := myPosition s; camera := camera s;
     avatarImages := avatarImages s; customAvatar := v;
     activeEmotes := activeEmotes s; chatMessages := chatMessages s;
     pressedKeys := pressedKeys s; now := now s; timers := timers s |}.

Definition rejoinWithCustomAvatar (s : GameClient) : GameClient :=
  match customAvatar s with
  | None => s
  | Some avatar => socketSend (OutJoin "Melvin" (Some avatar)) s
  end.

(** [createCustomAvatar], from the data URL of the picture scaled to
    32 x 32 ([canvas.toDataURL]). *)
Definition createCustomAvatar (base64Image : string) (s : GameClient) : GameClient :=
  let frames := [ base64Image; base64Image; base64Image ] in
  let s1 :=
    set_customAvatar
      (Some {| av_name := "custom_avatar";
               av_frames := {[ "north" := frames; "south" := frames;
                               "east" := frames ]} |}) s in
  if socketOpen s1 then rejoinWithCustomAvatar s1 else s1.

(** The socket closes: the browser moves [readyState] to [CLOSED]; the
    [onclose] handler itself only logs. *)
Definition socketOnclose (s : GameClient) : GameClient :=
  match socket s with
  | Some k => set_socket (Some {| readyState := CLOSED; sent := sent k |}) s
  | None => s
  end.

(** Enter in the chat input; [message] is the trimmed text of the field. *)
Definition chatInputEnter (message : string) (s : GameClient) : GameClient :=
  if String.eqb message "" then s else sendChatMessage message s.

(** Everything the page reacts to after [init]. *)
Inductive Event :=
| KeyDown (code : string)
| KeyUp (code : string)
| EmoteButton (emote : string)
| ChatEnter (message : string)
| AvatarChosen (base64Image : string)
| SocketOpened
| SocketClosed
| SocketMessage (message : InMsg)
| Resized (innerWidth innerHeight : Z)
| WorldImageLoaded (w h : Q)
| FrameLoaded (name direction : string) (index : nat) (img : Image)
| ClockReached (t : Z).

Definition dispatch (e : Event) (s : GameClient) : GameClient :=
  match e with
  | KeyDown code => onKeyDown code s
  | KeyUp code => handleKeyUp code s
  | EmoteButton emote => sendEmote emote s
  | ChatEnter message => chatInputEnter message s
  | AvatarChosen base64Image => createCustomAvatar base64Image s
  | SocketOpened => socketOnopen s
  | SocketClosed => socketOnclose s
  | SocketMessage message => handleMessage message s
  | Resized innerWidth innerHeight => onResize innerWidth innerHeight s
  | WorldImageLoaded w h => worldImageOnload w h s
  | FrameLoaded name direction index img => frameOnload name direction index img s
  | ClockReached t => advanceTo t s
  end.

Definition run (events : list Event) (s : GameClient) : GameClient :=
  fold_left (fun st e => dispatch e st) events s.

(** A state the page can be in: [init] followed by events. *)
Definition reachable (s : GameClient) : Prop :=
  exists innerWidth innerHeight clock events,
    s = run events (init innerWidth innerHeight (constructed clock)).

(** ** Invariants *)

(** Only codes for which [movementKeys[code]] is truthy are ever held:
    the keys of the table and the names of inherited members. *)
Definition heldKeysMapped (s : GameClient) : Prop :=
  forall code, code ∈ pressedKeys s ->
               is_Some (movementKeys !! code) \/ inheritedName code = true.

(** The directions of an entry of the frame cache: none but north, south
    and east; north always; south whenever east. *)
Definition entryShaped (directions : gmap string (gmap nat Image)) : Prop :=
  dom directions ⊆ ({[ "north"; "south"; "east" ]} : gset string)
  /\ "north" ∈ dom directions
  /\ ("east" ∈ dom directions -> "south" ∈ dom directions).

Definition cacheShaped (s : GameClient) : Prop :=
  forall name directions,
    avatarImages s !! name = Some directions -> entryShaped directions.


(** The horizontal flip [scale(-1, 1)] on the untransformed context. *)
Definition hflip : Matrix := scaleBy (-1) 1 identity.

(** A painted call is upright when it is painted untransformed or, for a
    sprite only, flipped. *)
Definition uprightEntry (entry : Matrix * CtxCall) : Prop :=
  match snd entry with
  | DrawImage _ _ _ _ _ => fst entry = identity \/ fst entry = hflip
  | _ => fst entry = identity
  end.

(** * Properties *)

(** ** Field updates and reads *)

Lemma set_activeEmotes_same s : set_activeEmotes (activeEmotes s) s = s.
Proof. by destruct s. Qed.

Lemma jsRead_own {A} (obj : gmap string A) key value :
  obj !! key = Some value -> jsRead obj key = Own value.
Proof. intros H. unfold jsRead. by rewrite H. Qed.

Lemma jsRead_undefined {A} (obj : gmap string A) key :
  obj !! key = None -> inheritedName key = false -> jsRead obj key = Undefined.
Proof. intros H Hn. unfold jsRead. by rewrite H, Hn. Qed.

Lemma jsRead_inherited {A} (obj : gmap string A) key :
  obj !! key = None -> inheritedName key = true -> jsRead obj key = Inherited.
Proof. intros H Hn. unfold jsRead. by rewrite H, Hn. Qed.

Lemma players_updateMyPosition s : players (updateMyPosition s) = players s.
Proof.
  unfold updateMyPosition. destruct (myPlayerId s) as [i|]; [|done].
  destruct (String.eqb i ""); [done|]. by destruct (jsRead (players s) i).
Qed.

Lemma players_updateCamera s : players (updateCamera s) = players s.
Proof. done. Qed.

(** ** Camera *)

Section Camera.

Lemma Qltb_lt a b : Qltb a b = true <-> (a < b)%Q.
Proof.
  unfold Qltb. rewrite negb_true_iff. split.
  - intros H. apply Qnot_le_lt. intros Hle. apply Qle_bool_iff in Hle. congruence.
  - intros H. destruct (Qle_bool b a) eqn:E; [|done].
    apply Qle_bool_iff in E. exfalso. eapply Qlt_not_le; eauto.
Qed.

Lemma Qltb_ge a b : Qltb a b = false <-> (b <= a)%Q.
Proof. unfold Qltb. rewrite negb_false_iff. apply Qle_bool_iff. Qed.

(** On one axis, [Math.max(0, Math.min(v, hi))] is the clamp whenever the
    upper bound is not negative. *)
Lemma camera_axis_clamp (v hi : Q) :
  (0 <= hi)%Q -> (Qmax 0 (Qmin v hi) == clamp v 0 hi)%Q.
Proof.
  intros Hhi. unfold clamp.
  destruct (Qltb v 0) eqn:E1.
  - apply Qltb_lt in E1. apply Q.max_l.
    apply Qle_trans with v; [apply Q.le_min_l|]. by apply Qlt_le_weak.
  - apply Qltb_ge in E1. destruct (Qltb hi v) eqn:E2.
    + apply Qltb_lt in E2. rewrite Q.min_r by (by apply Qlt_le_weak).
      by apply Q.max_r.
    + apply Qltb_ge in E2. rewrite Q.min_l by done. by apply Q.max_r.
Qed.

Lemma camera_axis_bounds (v hi : Q) :
  (0 <= hi)%Q -> (0 <= Qmax 0 (Qmin v hi) <= hi)%Q.
Proof.
  intros Hhi. split.
  - apply Q.le_max_l.
  - apply Q.max_lub; [done|]. apply Q.le_min_r.
Qed.

(** With a negative upper bound the outer [Math.max] decides. *)
Lemma camera_axis_degenerate (v hi : Q) :
  (hi < 0)%Q -> Qmax 0 (Qmin v hi) = 0%Q.
Proof.
  intros Hhi. unfold Qmax, GenericMinMax.gmax.
  destruct (Qcompare_spec 0 (Qmin v hi)) as [H|H|H]; try done.
  exfalso. apply (Qlt_irrefl 0).
  eapply Qlt_le_trans; [exact H|].
  apply Qle_trans with hi; [apply Q.le_min_r|]. by apply Qlt_le_weak.
Qed.

Lemma room_nonneg (w : Q) : (w <= worldSize)%Q -> (0 <= worldSize - w)%Q.
Proof. intros H. by apply -> Qle_minus_iff. Qed.

Lemma room_negative (w : Q) : (worldSize < w)%Q -> (worldSize - w < 0)%Q.
Proof.
  intros H. apply Qlt_minus_iff. apply Qlt_minus_iff in H.
  eapply Qlt_le_trans; [exact H|]. apply Qle_lteq. right. ring.
Qed.

(** C4.  When neither canvas dimension exceeds the world size,
    [updateCamera] leaves a camera whose width and height are the canvas
    dimensions, whose x is clamp(focusX - width/2, 0, worldSize - width)
    and whose y is the same on the other axis; hence
    0 <= x <= worldSize - width and 0 <= y <= worldSize - height. *)
Theorem updateCamera_within_world (s : GameClient) :
  let width := inject_Z (canvas_width s) in
  let height := inject_Z (canvas_height s) in
  let c := camera (updateCamera s) in
  (width <= worldSize)%Q ->
  (height <= worldSize)%Q ->
  cam_width c = width /\ cam_height c = height
  /\ (cam_x c == clamp (fst (myPosition s) - width / 2) 0 (worldSize - width))%Q
  /\ (cam_y c == clamp (snd (myPosition s) - height / 2) 0 (worldSize - height))%Q
  /\ (0 <= cam_x c <= worldSize - width)%Q
  /\ (0 <= cam_y c <= worldSize - height)%Q.
Proof.
  intros width height c Hw Hh. subst c. cbn [updateCamera set_camera camera cam_x cam_y cam_width cam_height].
  repeat split; try reflexivity.
  - apply camera_axis_clamp, room_nonneg, Hw.
  - apply camera_axis_clamp, room_nonneg, Hh.
  - apply camera_axis_bounds, room_nonneg, Hw.
  - apply camera_axis_bounds, room_nonneg, Hw.
  - apply camera_axis_bounds, room_nonneg, Hh.
  - apply camera_axis_bounds, room_nonneg, Hh.
Qed.

Lemma updateCamera_within_world_witness :
  (inject_Z (canvas_width joinedWhileMapLoads) <= worldSize)%Q
  /\ (cam_x (camera (updateCamera joinedWhileMapLoads))
      == clamp (fst (myPosition joinedWhileMapLoads)
                - inject_Z (canvas_width joinedWhileMapLoads) / 2)
           0 (worldSize - inject_Z (canvas_width joinedWhileMapLoads)))%Q.
Proof.
  assert (Hw : (inject_Z (canvas_width joinedWhileMapLoads) <= worldSize)%Q)
    by (vm_compute; discriminate).
  assert (Hh : (inject_Z (canvas_height joinedWhileMapLoads) <= worldSize)%Q)
    by (vm_compute; discriminate).
  split; [exact Hw|].
  exact (proj1 (proj2 (proj2 (updateCamera_within_world joinedWhileMapLoads Hw Hh)))).
Defined.

(** C10.  Whatever the focus and the canvas size, the camera origin left
    by [updateCamera] has x >= 0 and y >= 0; on an axis where the canvas
    is larger than the world the origin is exactly 0. *)
Theorem updateCamera_origin_nonneg (s : GameClient) :
  let c := camera (updateCamera s) in
  (0 <= cam_x c)%Q /\ (0 <= cam_y c)%Q
  /\ ((worldSize < inject_Z (canvas_width s))%Q -> cam_x c = 0%Q)
  /\ ((worldSize < inject_Z (canvas_height s))%Q -> cam_y c = 0%Q).
Proof.
  cbn [updateCamera set_camera camera cam_x cam_y].
  repeat split.
  - apply Q.le_max_l.
  - apply Q.le_max_l.
  - intros H. apply camera_axis_degenerate, room_negative, H.
  - intros H. apply camera_axis_degenerate, room_negative, H.
Qed.

Lemma updateCamera_origin_nonneg_witness :
  (worldSize < inject_Z (canvas_width hugeWindowClient))%Q
  /\ (worldSize < inject_Z (canvas_height hugeWindowClient))%Q
  /\ cam_x (camera (updateCamera hugeWindowClient)) = 0%Q
  /\ cam_y (camera (updateCamera hugeWindowClient)) = 0%Q.
Proof.
  assert (Hw : (worldSize < inject_Z (canvas_width hugeWindowClient))%Q)
    by (vm_compute; reflexivity).
  assert (Hh : (worldSize < inject_Z (canvas_height hugeWindowClient))%Q)
    by (vm_compute; reflexivity).
  split; [exact Hw | split; [exact Hh | split]].
  - exact (proj1 (proj2 (proj2 (updateCamera_origin_nonneg hugeWindowClient))) Hw).
  - exact (proj2 (proj2 (proj2 (updateCamera_origin_nonneg hugeWindowClient))) Hh).
Defined.

End Camera.

(** ** World state store *)

Section Store.

Lemma players_moved (moved : gmap string Player) (s : GameClient) :
  players (handleMessage (InPlayersMoved moved) s) = moved ∪ players s.
Proof.
  cbn [handleMessage]. by rewrite players_updateCamera, players_updateMyPosition.
Qed.

(** C5.  A [players_moved] message replaces each entity whose id is a key
    of the update by the update's value as a whole, which also inserts
    the ids that were not present, and leaves every entity whose id is
    not a key of the update as it was. *)
Theorem players_moved_overwrites (s : GameClient) (moved : gmap string Player)
    (i : string) :
  let s' := handleMessage (InPlayersMoved moved) s in
  (forall p, moved !! i = Some p -> players s' !! i = Some p)
  /\ (moved !! i = None -> players s' !! i = players s !! i).
Proof.
  intros s'. subst s'. rewrite players_moved. split.
  - intros p Hp. by apply lookup_union_Some_l.
  - intros Hnone. by apply lookup_union_r.
Qed.

Lemma players_moved_overwrites_witness :
  let moved : gmap string Player := {[ "p2" := withFacing "east" bob ]} in
  let s' := handleMessage (InPlayersMoved moved) joinedClient in
  moved !! "p2" = Some (withFacing "east" bob)
  /\ moved !! "p1" = None
  /\ players s' !! "p2" = Some (withFacing "east" bob)
  /\ players s' !! "p1" = players joinedClient !! "p1".
Proof.
  intros moved s'.
  assert (H2 : moved !! "p2" = Some (withFacing "east" bob)) by reflexivity.
  assert (H1 : moved !! "p1" = None) by reflexivity.
  split; [exact H2 | split; [exact H1 | split]].
  - exact (proj1 (players_moved_overwrites joinedClient moved "p2") _ H2).
  - exact (proj2 (players_moved_overwrites joinedClient moved "p1") H1).
Defined.

End Store.

(** ** Chat log *)

Section Chat.

Lemma chatMessages_addChatMessage username message type s :
  chatMessages (addChatMessage username message type s)
  = let pushed :=
      (chatMessages s
         ++ [ {| cm_username := username; cm_message := message;
                 cm_timestamp := now s; cm_type := type |} ])%list in
    if (maxChatMessages <? length pushed)%nat then tail pushed else pushed.
Proof. done. Qed.

(** One insert keeps the bound. *)
Lemma addChatMessage_bounded username message type s :
  (length (chatMessages s) <= maxChatMessages)%nat ->
  (length (chatMessages (addChatMessage username message type s))
   <= maxChatMessages)%nat.
Proof.
  intros Hlen. rewrite chatMessages_addChatMessage. cbv zeta.
  destruct (Nat.ltb_spec maxChatMessages
              (length (chatMessages s ++ [ {| cm_username := username;
                 cm_message := message; cm_timestamp := now s;
                 cm_type := type |} ]))) as [Hover|Hfit].
  - destruct (chatMessages s) as [|oldest others]; cbn [app tail length] in *.
    + unfold maxChatMessages. lia.
    + rewrite length_app in *. cbn [length] in *. lia.
  - exact Hfit.
Qed.

Lemma insertAll_bounded entries : forall s,
  (length (chatMessages s) <= maxChatMessages)%nat ->
  (length (chatMessages (insertAll entries s)) <= maxChatMessages)%nat.
Proof.
  induction entries as [|entry entries IH]; intros s Hlen; [exact Hlen|].
  cbn [insertAll fold_left]. apply IH. by apply addChatMessage_bounded.
Qed.

Lemma now_addChatMessage username message type s :
  now (addChatMessage username message type s) = now s.
Proof. done. Qed.

(** The newest chat line is the last entry, whether or not the log was
    full. *)
Lemma addChatMessage_last username message type s :
  last (chatMessages (addChatMessage username message type s))
  = Some {| cm_username := username; cm_message := message;
            cm_timestamp := now s; cm_type := type |}.
Proof.
  rewrite chatMessages_addChatMessage. cbv zeta.
  destruct (Nat.ltb_spec maxChatMessages
              (length (chatMessages s ++ [ {| cm_username := username;
                 cm_message := message; cm_timestamp := now s;
                 cm_type := type |} ]))) as [Hover|_]; [|apply last_snoc].
  destruct (chatMessages s) as [|oldest others]; cbn [app tail length] in *.
  - unfold maxChatMessages in Hover. lia.
  - apply last_snoc.
Qed.

(** One insert, spelled out: below the cap the entry is appended and
    nothing is dropped, at the cap the oldest entry goes. *)
Lemma addChatMessage_step username message type s :
  (length (chatMessages s) <= 50)%nat ->
  chatMessages (addChatMessage username message type s)
  = ((if (length (chatMessages s) <? 50)%nat
      then chatMessages s else tail (chatMessages s))
     ++ [ chatEntry (now s) (username, message, type) ])%list.
Proof.
  intros Hlen. rewrite chatMessages_addChatMessage. cbv zeta.
  unfold chatEntry. cbn [fst snd]. rewrite length_app. cbn [length].
  unfold maxChatMessages.
  destruct (Nat.ltb_spec (length (chatMessages s)) 50) as [Hbelow|Hfull];
    destruct (Nat.ltb_spec 50 (length (chatMessages s) + 1)) as [Hover|Hfit];
    try lia; [reflexivity|].
  destruct (chatMessages s) as [|oldest others]; [cbn [length] in *; lia|].
  reflexivity.
Qed.

(** Dropping down to the newest 50 after every insert is dropping once
    at the end. *)
Lemma newest_window {A} (before after : list A) (k : nat) :
  k = (length before - 50)%nat ->
  drop (length (drop k before ++ after) - 50) (drop k before ++ after)
  = drop (length (before ++ after) - 50) (before ++ after).
Proof.
  intros Hk. rewrite <- (drop_app_le before after k) by lia.
  rewrite drop_drop. f_equal. rewrite length_drop, !length_app. lia.
Qed.

Lemma addChatMessage_window username message type s :
  (length (chatMessages s) <= 50)%nat ->
  chatMessages (addChatMessage username message type s)
  = drop (length (chatMessages s ++ [ chatEntry (now s) (username, message, type) ]) - 50)
      (chatMessages s ++ [ chatEntry (now s) (username, message, type) ]).
Proof.
  intros Hlen. rewrite addChatMessage_step by done. rewrite length_app. cbn [length].
  destruct (Nat.ltb_spec (length (chatMessages s)) 50) as [Hbelow|Hfull].
  - replace (length (chatMessages s) + 1 - 50)%nat with 0%nat by lia. by rewrite drop_0.
  - replace (length (chatMessages s) + 1 - 50)%nat with 1%nat by lia.
    destruct (chatMessages s) as [|oldest others]; [cbn [length] in *; lia|].
    reflexivity.
Qed.

(** A run of inserts leaves the newest 50 of everything the log held and
    everything inserted, in the order of insertion. *)
Lemma insertAll_window entries : forall s,
  (length (chatMessages s) <= 50)%nat ->
  chatMessages (insertAll entries s)
  = drop (length (chatMessages s ++ map (chatEntry (now s)) entries) - 50)
      (chatMessages s ++ map (chatEntry (now s)) entries).
Proof.
  induction entries as [|[[username message] type] entries IH]; intros s Hlen.
  - cbn [insertAll fold_left map]. rewrite app_nil_r.
    replace (length (chatMessages s) - 50)%nat with 0%nat by lia. by rewrite drop_0.
  - cbn [insertAll fold_left map fst snd].
    fold (insertAll entries (addChatMessage username message type s)).
    rewrite IH by (by apply addChatMessage_bounded).
    rewrite now_addChatMessage, addChatMessage_window by done.
    rewrite newest_window by reflexivity.
    by rewrite <- app_assoc.
Qed.

(** C7.  Take a log of at most 50 entries (the empty log of a new client
    in particular).  One insert appends the new entry, dropping nothing
    while the log holds fewer than 50 entries and exactly the oldest
    entry when it holds 50; the log then holds one more entry, or 50.
    Hence after any run of inserts the log is the newest 50 of its old
    entries followed by the inserted ones, in the order of insertion: it
    never holds more than 50, a 51st insert evicts the oldest entry and
    the remaining 50 keep their order. *)
Theorem chat_log_capped (s : GameClient) :
  (length (chatMessages s) <= 50)%nat ->
  (forall username message type,
     let s' := addChatMessage username message type s in
     chatMessages s'
     = ((if (length (chatMessages s) <? 50)%nat
         then chatMessages s else tail (chatMessages s))
        ++ [ {| cm_username := username; cm_message := message;
                cm_timestamp := now s; cm_type := type |} ])%list
     /\ length (chatMessages s') = Nat.min 50 (S (length (chatMessages s))))
  /\ (forall entries,
        let all := (chatMessages s ++ map (chatEntry (now s)) entries)%list in
        chatMessages (insertAll entries s) = drop (length all - 50) all
        /\ length (chatMessages (insertAll entries s)) = Nat.min 50 (length all)
        /\ (length (chatMessages (insertAll entries s)) <= 50)%nat).
Proof.
  intros Hlen. split.
  - intros username message type s'. subst s'.
    rewrite addChatMessage_step by done. split; [reflexivity|].
    rewrite length_app. cbn [length].
    destruct (Nat.ltb_spec (length (chatMessages s)) 50) as [Hbelow|Hfull]; [lia|].
    destruct (chatMessages s) as [|oldest others]; cbn [tail length] in *; lia.
  - intros entries all. rewrite insertAll_window by done. fold all.
    rewrite length_drop. repeat split; lia.
Qed.

Lemma chat_log_capped_witness :
  (length (chatMessages (constructed 0)) <= 50)%nat
  /\ chatMessages (insertAll (letteredEntries 51) (constructed 0))
     = map (chatEntry 0) (tail (letteredEntries 51))
  /\ length (chatMessages (insertAll (letteredEntries 51) (constructed 0))) = 50%nat.
Proof.
  assert (Hle : (length (chatMessages (constructed 0)) <= 50)%nat)
    by (vm_compute; lia).
  split; [exact Hle|].
  destruct (proj2 (chat_log_capped (constructed 0) Hle) (letteredEntries 51))
    as (Hwindow & Hcount & _).
  split.
  - rewrite Hwindow. vm_compute. reflexivity.
  - rewrite Hcount. vm_compute. reflexivity.
Defined.

End Chat.

(** ** Connection channel and input mapper *)

Section Input.

Lemma socketOpen_socketSend m s : socketOpen (socketSend m s) = socketOpen s.
Proof.
  unfold socketOpen, socketSend. destruct (socket s) as [k|] eqn:E; cbn.
  - by destruct k.
  - by rewrite E.
Qed.

Lemma outbox_socketSend m s :
  socketOpen s = true -> outbox (socketSend m s) = (outbox s ++ [m])%list.
Proof.
  unfold socketOpen, socketSend, outbox.
  destruct (socket s) as [k|]; [done|discriminate].
Qed.

Lemma pressedKeys_socketSend m s : pressedKeys (socketSend m s) = pressedKeys s.
Proof. unfold socketSend. by destruct (socket s). Qed.

(** What [sendMoveCommand] adds to the outbox. *)
Lemma outbox_sendMoveCommand direction s :
  outbox (sendMoveCommand direction s)
  = (outbox s ++ if socketOpen s then [OutMove direction] else [])%list.
Proof.
  unfold sendMoveCommand. destruct (socketOpen s) eqn:E; cbn [negb].
  - by apply outbox_socketSend.
  - by rewrite app_nil_r.
Qed.

Lemma outbox_sendStopCommand s :
  outbox (sendStopCommand s)
  = (outbox s ++ if socketOpen s then [OutStop] else [])%list.
Proof.
  unfold sendStopCommand. destruct (socketOpen s) eqn:E; cbn [negb].
  - by apply outbox_socketSend.
  - by rewrite app_nil_r.
Qed.

Lemma movementKeys_cases (code direction : string) :
  movementKeys !! code = Some direction ->
  (code = "ArrowUp" /\ direction = "up")
  \/ (code = "ArrowDown" /\ direction = "down")
  \/ (code = "ArrowLeft" /\ direction = "left")
  \/ (code = "ArrowRight" /\ direction = "right").
Proof.
  unfold movementKeys. intros H.
  repeat (apply lookup_insert_Some in H as [[<- <-]|[_ H]]; [tauto|]).
  apply lookup_singleton_Some in H as [<- <-]. tauto.
Qed.

Lemma movementKeys_not_digit (code direction : string) :
  movementKeys !! code = Some direction -> String.prefix "Digit" code = false.
Proof.
  intros H.
  destruct (movementKeys_cases _ _ H) as [[-> _]|[[-> _]|[[-> _]|[-> _]]]];
    reflexivity.
Qed.

Lemma movementKeys_direction (code direction : string) :
  movementKeys !! code = Some direction -> direction ∈ keyDirections.
Proof.
  intros H. unfold keyDirections.
  destruct (movementKeys_cases _ _ H) as [[_ ->]|[[_ ->]|[[_ ->]|[_ ->]]]];
    repeat first [ apply list_elem_of_here | apply list_elem_of_further ].
Qed.

(** A key-down of a mapped key: the key joins the held set and the move
    command is handed to the channel. *)
Lemma handleKeyDown_mapped (code direction : string) (s : GameClient) :
  movementKeys !! code = Some direction ->
  pressedKeys (handleKeyDown code s) = pressedKeys s ∪ {[ code ]}
  /\ socketOpen (handleKeyDown code s) = socketOpen s
  /\ outbox (handleKeyDown code s)
     = (outbox s ++ if socketOpen s then [OutMove direction] else [])%list.
Proof.
  intros H. unfold handleKeyDown.
  rewrite (movementKeys_not_digit _ _ H), (jsRead_own _ _ _ H).
  split; [|split].
  - unfold sendMoveCommand. destruct (negb _); [done|].
    by rewrite pressedKeys_socketSend.
  - unfold sendMoveCommand. destruct (negb _); [done|].
    by rewrite socketOpen_socketSend.
  - by rewrite outbox_sendMoveCommand.
Qed.

(** A key-up of a mapped key: the key leaves the held set and [stop] is
    handed to the channel when no key is left. *)
Lemma handleKeyUp_mapped (code direction : string) (s : GameClient) :
  movementKeys !! code = Some direction ->
  pressedKeys (handleKeyUp code s) = pressedKeys s ∖ {[ code ]}
  /\ socketOpen (handleKeyUp code s) = socketOpen s
  /\ outbox (handleKeyUp code s)
     = (outbox s ++ if socketOpen s && bool_decide (size (pressedKeys s ∖ {[ code ]}) = 0%nat)
                    then [OutStop] else [])%list.
Proof.
  intros H. unfold handleKeyUp. rewrite (jsRead_own _ _ _ H).
  cbn [pressedKeys set_pressedKeys].
  destruct (decide (size (pressedKeys s ∖ {[ code ]}) = 0%nat)) as [Hz|Hnz].
  - rewrite (bool_decide_eq_true_2 _ Hz), andb_true_r.
    split; [|split].
    + unfold sendStopCommand. destruct (negb _); [done|].
      by rewrite pressedKeys_socketSend.
    + unfold sendStopCommand. destruct (negb _); [done|].
      by rewrite socketOpen_socketSend.
    + by rewrite outbox_sendStopCommand.
  - rewrite (bool_decide_eq_false_2 _ Hnz), andb_false_r.
    split; [done|split; [done|]]. cbn. by rewrite app_nil_r.
Qed.

(** C1, as the code has it.  For a key-down of a key of [movementKeys]:
    with the connection open exactly one message is sent, the move
    message whose direction is the key's entry in [movementKeys], one of
    up, down, left, right; with the connection not open nothing is sent. *)
Theorem handleKeyDown_sends_key_direction (s : GameClient) (code direction : string) :
  movementKeys !! code = Some direction ->
  direction ∈ keyDirections
  /\ (socketOpen s = true ->
      outbox (handleKeyDown code s) = (outbox s ++ [OutMove direction])%list)
  /\ (socketOpen s = false -> outbox (handleKeyDown code s) = outbox s).
Proof.
  intros H. destruct (handleKeyDown_mapped code direction s H) as (_ & _ & Hout).
  split; [by eapply movementKeys_direction|]. split; intros Hopen.
  - by rewrite Hout, Hopen.
  - by rewrite Hout, Hopen, app_nil_r.
Qed.

Lemma handleKeyDown_sends_key_direction_witness :
  movementKeys !! "ArrowLeft" = Some "left"
  /\ socketOpen connectedClient = true
  /\ outbox (handleKeyDown "ArrowLeft" connectedClient)
     = (outbox connectedClient ++ [OutMove "left"])%list.
Proof.
  assert (Hkey : movementKeys !! "ArrowLeft" = Some "left") by reflexivity.
  assert (Hopen : socketOpen connectedClient = true) by reflexivity.
  split; [exact Hkey | split; [exact Hopen|]].
  exact (proj1 (proj2 (handleKeyDown_sends_key_direction connectedClient
                         "ArrowLeft" "left" Hkey)) Hopen).
Defined.

(** C1 as stated fails: on an open connection the key-down of ArrowUp
    sends the move message with direction "up", which is none of north,
    south, east, west. *)
Lemma handleKeyDown_direction_not_a_facing :
  socketOpen connectedClient = true
  /\ movementKeys !! "ArrowUp" = Some "up"
  /\ outbox (handleKeyDown "ArrowUp" connectedClient)
     = (outbox connectedClient ++ [OutMove "up"])%list
  /\ ~ (exists d, d ∈ facings
        /\ outbox (handleKeyDown "ArrowUp" connectedClient)
           = (outbox connectedClient ++ [OutMove d])%list).
Proof.
  split; [reflexivity | split; [reflexivity | split; [reflexivity|]]].
  intros (d & Hd & Hout). vm_compute in Hout.
  injection Hout as <-. unfold facings in Hd.
  repeat (apply elem_of_cons in Hd as [Hd|Hd]; [discriminate Hd|]).
  by apply elem_of_nil in Hd.
Qed.

(** C6, as the code has it.  On an open connection and with no key held,
    down(ArrowUp), down(ArrowDown), up(ArrowDown) send exactly the moves
    "up" then "down": the release of ArrowDown while ArrowUp is held
    sends nothing.  The following up(ArrowUp) sends exactly [stop]. *)
Theorem key_sequence_intents (s : GameClient) :
  socketOpen s = true ->
  pressedKeys s = ∅ ->
  let s1 := handleKeyDown "ArrowUp" s in
  let s2 := handleKeyDown "ArrowDown" s1 in
  let s3 := handleKeyUp "ArrowDown" s2 in
  let s4 := handleKeyUp "ArrowUp" s3 in
  outbox s1 = (outbox s ++ [OutMove "up"])%list
  /\ outbox s2 = (outbox s ++ [OutMove "up"; OutMove "down"])%list
  /\ outbox s3 = outbox s2
  /\ outbox s4 = (outbox s3 ++ [OutStop])%list.
Proof.
  intros Hopen Hheld s1 s2 s3 s4.
  assert (Hup : movementKeys !! "ArrowUp" = Some "up") by reflexivity.
  assert (Hdown : movementKeys !! "ArrowDown" = Some "down") by reflexivity.
  assert (Hne : "ArrowUp" ≠ "ArrowDown") by discriminate.
  destruct (handleKeyDown_mapped _ _ s Hup) as (P1 & O1 & B1).
  destruct (handleKeyDown_mapped _ _ s1 Hdown) as (P2 & O2 & B2).
  destruct (handleKeyUp_mapped _ _ s2 Hdown) as (P3 & O3 & B3).
  destruct (handleKeyUp_mapped _ _ s3 Hup) as (P4 & O4 & B4).
  fold s1 in P1, O1, B1. fold s2 in P2, O2, B2. fold s3 in P3, O3, B3.
  fold s4 in P4, O4, B4.
  rewrite Hopen in *. rewrite O1 in *. rewrite O2 in *. rewrite O3 in *.
  assert (H3 : pressedKeys s2 ∖ {[ "ArrowDown" ]} = ({[ "ArrowUp" ]} : gset string)).
  { rewrite P2, P1, Hheld. apply set_eq. intros k.
    rewrite elem_of_difference, !elem_of_union, !elem_of_singleton.
    split; [intros [[[H|H]|H] Hn]; [by apply not_elem_of_empty in H|done|done]|].
    intros ->. split; [by left; right|done]. }
  assert (H4 : pressedKeys s3 ∖ {[ "ArrowUp" ]} = (∅ : gset string)).
  { rewrite P3, H3. apply set_eq. intros k.
    rewrite elem_of_difference, elem_of_singleton.
    split; [by intros [? ?]|]. intros H. by apply not_elem_of_empty in H. }
  rewrite H3, size_singleton in B3. rewrite H4, size_empty in B4.
  cbn in B3, B4. rewrite app_nil_r in B3.
  split; [exact B1|]. split; [by rewrite B2, B1, <- app_assoc|].
  split; [exact B3 | exact B4].
Qed.

Lemma key_sequence_intents_witness :
  let s3 := handleKeyUp "ArrowDown"
              (handleKeyDown "ArrowDown" (handleKeyDown "ArrowUp" connectedClient)) in
  socketOpen connectedClient = true
  /\ pressedKeys connectedClient = ∅
  /\ outbox s3 = outbox (handleKeyDown "ArrowDown" (handleKeyDown "ArrowUp" connectedClient))
  /\ outbox (handleKeyUp "ArrowUp" s3) = (outbox s3 ++ [OutStop])%list.
Proof.
  intros s3.
  assert (Hopen : socketOpen connectedClient = true) by reflexivity.
  assert (Hheld : pressedKeys connectedClient = ∅) by reflexivity.
  split; [exact Hopen | split; [exact Hheld|]].
  exact (proj2 (proj2 (key_sequence_intents connectedClient Hopen Hheld))).
Defined.

(** C6 as stated fails: the two moves sent carry the directions "up" and
    "down", not north and south. *)
Lemma key_sequence_sends_up_down_not_north_south :
  let s3 := handleKeyUp "ArrowDown"
              (handleKeyDown "ArrowDown" (handleKeyDown "ArrowUp" connectedClient)) in
  outbox s3 = (outbox connectedClient ++ [OutMove "up"; OutMove "down"])%list
  /\ outbox s3 <> (outbox connectedClient ++ [OutMove "north"; OutMove "south"])%list.
Proof.
  intros s3. split; [reflexivity|]. vm_compute. discriminate.
Qed.

End Input.

(** ** Effect tracker *)

Section Effects.

Implicit Types (s : GameClient) (playerId : string) (t : Z).

(** Running a batch of removal callbacks deletes the emotes of exactly
    the players the batch names. *)
Lemma callbacks_lookup (fired : list Timer) : forall s playerId,
  activeEmotes
    (fold_left (fun st tm => timeoutCallback (tm_playerId tm) st) fired s) !! playerId
  = if existsb (fun tm => String.eqb (tm_playerId tm) playerId) fired
    then None else activeEmotes s !! playerId.
Proof.
  induction fired as [|tm fired IH]; intros s playerId; [done|].
  cbn [fold_left existsb]. rewrite IH.
  destruct (existsb _ fired); [by rewrite orb_true_r|].
  rewrite orb_false_r. cbn [timeoutCallback set_activeEmotes activeEmotes].
  destruct (String.eqb_spec (tm_playerId tm) playerId) as [->|Hne].
  - by rewrite lookup_delete_eq.
  - by rewrite lookup_delete_ne.
Qed.

Lemma existsb_filter {A} (f g : A -> bool) (l : list A) :
  existsb f (List.filter g l) = existsb (fun x => g x && f x) l.
Proof.
  induction l as [|x l IH]; [done|]. cbn [List.filter existsb].
  destruct (g x); cbn [existsb andb]; by rewrite IH.
Qed.

(** The emotes after the clock has moved to [t]. *)
Lemma activeEmotes_advanceTo t s playerId :
  activeEmotes (advanceTo t s) !! playerId
  = if existsb (fun tm => (tm_due tm <=? t)%Z && String.eqb (tm_playerId tm) playerId)
         (timers s)
    then None else activeEmotes s !! playerId.
Proof.
  unfold advanceTo. cbn [set_now set_timers activeEmotes].
  by rewrite callbacks_lookup, existsb_filter.
Qed.




Lemma drawEmote_inactive playerId s (x y : Q) :
  activeEmotes s !! playerId = None -> drawEmote playerId x y s = [].
Proof. intros H. unfold drawEmote. by rewrite H. Qed.




(** What a [player_left] message does to the tables. *)
Lemma player_left_fields s playerId :
  let s' := handleMessage (InPlayerLeft playerId) s in
  players s' = delete playerId (players s)
  /\ activeEmotes s' = delete playerId (activeEmotes s)
  /\ timers s' = timers s
  /\ now s' = now s
  /\ (jsRead (players s) playerId = Undefined -> chatMessages s' = chatMessages s).
Proof.
  cbn [handleMessage]. destruct (jsRead (players s) playerId) as [p| |];
    repeat split; done.
Qed.

Lemma timeoutCallback_absent s playerId :
  activeEmotes s !! playerId = None -> timeoutCallback playerId s = s.
Proof.
  intros H. unfold timeoutCallback. rewrite (delete_id _ _ H).
  apply set_activeEmotes_same.
Qed.

(** C8 fails on the code at an id that names a member of
    [Object.prototype].  No player "constructor" is in the table and no
    emote is shown for that id, yet the [player_left] message for it does
    not leave the state as it was: [this.players["constructor"]] finds the
    inherited member, the guard [if (leftPlayer)] passes, and the chat log
    gains the line "undefined left the game.". *)
Lemma player_left_inherited_id_adds_line :
  let s' := handleMessage (InPlayerLeft "constructor") joinedClient in
  players joinedClient !! "constructor" = None
  /\ activeEmotes joinedClient !! "constructor" = None
  /\ length (chatMessages s') = S (length (chatMessages joinedClient))
  /\ last (chatMessages s')
     = Some {| cm_username := "System"; cm_message := "undefined left the game.";
               cm_timestamp := now joinedClient; cm_type := system |}
  /\ s' <> joinedClient.
Proof.
  intros s'.
  assert (Hlen : length (chatMessages s') = S (length (chatMessages joinedClient)))
    by (vm_compute; reflexivity).
  split; [vm_compute; reflexivity|]. split; [vm_compute; reflexivity|].
  split; [exact Hlen|]. split; [vm_compute; reflexivity|].
  intros Heq. rewrite Heq in Hlen. lia.
Qed.

(** X23.  A [player_left] message for E deletes E's entry and E's emote
    and cancels no timeout: the removals scheduled for E stay pending,
    and when one runs its deletion changes nothing, so E's emote stays
    absent at every later time.  If E was in the table the newest chat
    line reports the departure by name.  If E names no member of
    [Object.prototype], nothing is drawn for E's emote afterwards, and
    when E is in neither table the message leaves the whole state as it
    was; if E names such a member and no entity, the chat log gains the
    line "undefined left the game.". *)
Theorem player_left_clears_emote (s : GameClient) (E : string) :
  let s' := handleMessage (InPlayerLeft E) s in
  players s' !! E = None
  /\ activeEmotes s' !! E = None
  /\ pendingRemovals E s' = pendingRemovals E s
  /\ timeoutCallback E s' = s'
  /\ (forall t, activeEmotes (advanceTo t s') !! E = None)
  /\ (forall p, players s !! E = Some p ->
        last (chatMessages s')
        = Some {| cm_username := "System";
                  cm_message := pl_username p ++ " left the game.";
                  cm_timestamp := now s; cm_type := system |})
  /\ (inheritedName E = false ->
      (forall x y, drawEmote E x y s' = [])
      /\ (forall t x y, drawEmote E x y (advanceTo t s') = [])
      /\ (players s !! E = None ->
          players s' = players s /\ chatMessages s' = chatMessages s)
      /\ (players s !! E = None -> activeEmotes s !! E = None -> s' = s))
  /\ (inheritedName E = true -> players s !! E = None ->
      last (chatMessages s')
      = Some {| cm_username := "System"; cm_message := "undefined left the game.";
                cm_timestamp := now s; cm_type := system |}).
Proof.
  intros s'. destruct (player_left_fields s E) as (Hp & He & Ht & Hn & Hc).
  fold s' in Hp, He, Ht, Hn, Hc.
  assert (Hgone : activeEmotes s' !! E = None) by (by rewrite He, lookup_delete_eq).
  assert (Hlater : forall t, activeEmotes (advanceTo t s') !! E = None).
  { intros t. rewrite activeEmotes_advanceTo. by destruct (existsb _ _). }
  split; [by rewrite Hp, lookup_delete_eq|]. split; [exact Hgone|].
  split; [unfold pendingRemovals; by rewrite Ht|].
  split; [by apply timeoutCallback_absent|].
  split; [exact Hlater|]. split; [|split].
  - intros p Hin. subst s'. cbn [handleMessage]. rewrite (jsRead_own _ _ _ Hin).
    by rewrite addChatMessage_last.
  - intros Hplain.
    split; [intros x y; by apply drawEmote_inactive|].
    split; [intros t x y; by apply drawEmote_inactive|]. split.
    + intros Habsent. split; [by rewrite Hp, delete_id|].
      by apply Hc, jsRead_undefined.
    + intros Habsent Hquiet. subst s'. cbn [handleMessage].
      rewrite (jsRead_undefined _ _ Habsent Hplain).
      cbn [set_players activeEmotes].
      rewrite (delete_id _ _ Habsent), (delete_id _ _ Hquiet). by destruct s.
  - intros Hmember Habsent. subst s'. cbn [handleMessage].
    rewrite (jsRead_inherited _ _ Habsent Hmember). by rewrite addChatMessage_last.
Qed.

Lemma player_left_clears_emote_witness :
  inheritedName "ghost" = false
  /\ players joinedClient !! "ghost" = None
  /\ activeEmotes joinedClient !! "ghost" = None
  /\ handleMessage (InPlayerLeft "ghost") joinedClient = joinedClient.
Proof.
  assert (Hplain : inheritedName "ghost" = false) by reflexivity.
  assert (Hp : players joinedClient !! "ghost" = None) by (vm_compute; reflexivity).
  assert (He : activeEmotes joinedClient !! "ghost" = None) by (vm_compute; reflexivity).
  split; [exact Hplain | split; [exact Hp | split; [exact He|]]].
  destruct (player_left_clears_emote joinedClient "ghost")
    as (_ & _ & _ & _ & _ & _ & Hplainly & _).
  exact (proj2 (proj2 (proj2 (Hplainly Hplain))) Hp He).
Defined.


(** An emote for Bob, then Bob leaves: the removal scheduled for time
    3000 is still pending after the departure, and when it has run Bob's
    emote is absent as before. *)
Example player_left_after_emote :
  let s := handleMessage (InPlayerLeft "p2") (showEmote "p2" "wave" joinedClient) in
  activeEmotes s !! "p2" = None
  /\ pendingRemovals "p2" s = [ 3000%Z ]
  /\ activeEmotes (advanceTo 3000 s) !! "p2" = None
  /\ pendingRemovals "p2" (advanceTo 3000 s) = [].
Proof. repeat split; vm_compute; reflexivity. Qed.

End Effects.

(** ** Renderer *)

Section Renderer.

(** C3 fails on the code.  With [world.jpg] requested but not yet
    loaded, [render] does not leave the surface blank: it clears the
    canvas, issues the background draw and paints Eve's sprite and name,
    five painted calls in all.  The guard of [render] tests that
    [worldImage] is not null, and [loadWorldMap] stores the image object
    before it has loaded. *)
Lemma render_while_map_loads_paints :
  (exists img, worldImage joinedWhileMapLoads = Some img /\ img_complete img = false)
  /\ render joinedWhileMapLoads <> []
  /\ length (paint (render joinedWhileMapLoads)) = 5%nat
  /\ (exists m rect,
        paintedSprite (render joinedWhileMapLoads) = Some (m, knightEast0, rect)).
Proof.
  split.
  { exists {| img_src := "world.jpg"; img_complete := false;
              img_width := 0; img_height := 0 |}.
    split; vm_compute; reflexivity. }
  split; [vm_compute; discriminate|].
  split; [vm_compute; reflexivity|].
  exists (scaleBy (-1) 1 identity), ((-7168 # 64)%Q, (208 # 2)%Q, (768 # 32)%Q, 32%Q).
  vm_compute. reflexivity.
Qed.

(** C9.  Whenever the sprite of a west-facing entity is painted, the
    image is the frame of the east set at the entity's frame index, the
    transform is the horizontal flip, and every column of the image
    lands at the mirror image, about the entity's screen x, of where the
    same entity facing east would have it painted unflipped; rows are
    not moved.  The flipped sprite thus covers the rectangle centred on
    the screen x that the unflipped east frame would cover. *)
Theorem west_sprite_mirrored (s : GameClient) (p : Player)
    (m : Matrix) (img : Image) (dx dy dw dh : Q) :
  pl_facing p = "west" ->
  paintedSprite (drawAvatar p s) = Some (m, img, (dx, dy, dw, dh)) ->
  let screenX := (pl_x p - cam_x (camera s))%Q in
  (exists directions frames,
      avatarImages s !! pl_avatar p = Some directions
      /\ directions !! "east" = Some frames
      /\ frames !! default 0%nat (pl_animationFrame p) = Some img)
  /\ m = scaleBy (-1) 1 identity
  /\ paintedSprite (drawAvatar (withFacing "east" p) s)
     = Some (identity, img, ((screenX - dw / 2)%Q, dy, dw, dh))
  /\ (forall u v,
        deviceX m (dx + u) v + deviceX identity (screenX - dw / 2 + u) v
        == 2 * screenX)%Q
  /\ (forall u v, deviceY m u v == deviceY identity u v)%Q.
Proof.
  intros Hwest Hsprite screenX.
  unfold drawAvatar in *.
  cbn [withFacing pl_x pl_y pl_avatar pl_facing pl_animationFrame pl_id pl_username].
  rewrite Hwest in *.
  destruct (_ || _); [discriminate|].
  destruct (avatars s !! pl_avatar p); [|discriminate].
  destruct (avatarImages s !! pl_avatar p) as [directions|]; [|discriminate].
  cbn [String.eqb Ascii.eqb Bool.eqb] in *.
  destruct (directions !! "east") as [frames|] eqn:Hdir; [|discriminate].
  destruct (frames !! default 0%nat (pl_animationFrame p)) as [avatarImg|] eqn:Hframe;
    [|discriminate].
  cbn [app paintedSprite paint paintFrom isDrawing firstImage] in *.
  injection Hsprite as <- <- <- <- <- <-.
  split; [by exists directions, frames|].
  split; [reflexivity|]. split; [reflexivity|]. split.
  - intros u v. unfold deviceX, scaleBy, identity, screenX.
    cbn [m_a m_c m_e]. ring.
  - intros u v. unfold deviceY, scaleBy, identity. cbn [m_b m_d m_f]. ring.
Qed.

Lemma west_sprite_mirrored_witness :
  pl_facing eve = "west"
  /\ (exists rect,
        paintedSprite (drawAvatar eve joinedClient)
        = Some (scaleBy (-1) 1 identity, knightEast0, rect))
  /\ (exists rect,
        paintedSprite (drawAvatar (withFacing "east" eve) joinedClient)
        = Some (identity, knightEast0, rect)).
Proof.
  assert (Hwest : pl_facing eve = "west") by reflexivity.
  assert (Hsprite :
    paintedSprite (drawAvatar eve joinedClient)
    = Some (scaleBy (-1) 1 identity, knightEast0,
            ((-7168 # 64)%Q, (208 # 2)%Q, (768 # 32)%Q, 32%Q)))
    by (vm_compute; reflexivity).
  split; [exact Hwest|]. split; [eexists; exact Hsprite|].
  eexists.
  exact (proj1 (proj2 (proj2 (west_sprite_mirrored joinedClient eve _ _ _ _ _ _
                                Hwest Hsprite)))).
Defined.

End Renderer.

(** ** What each handler leaves alone *)

Section Frames.

Implicit Types (s : GameClient).

(** [loadAvatarImage] changes the frame cache only. *)
Lemma loadAvatarImage_frame avatar s :
  loadAvatarImage avatar s = set_avatarImages (avatarImages (loadAvatarImage avatar s)) s.
Proof.
  unfold loadAvatarImage. destruct (jsRead (avatarImages s) (av_name avatar)); by destruct s.
Qed.

(** Any property kept by [loadAvatarImage] is kept by the loop over the
    avatar table, wherever the loop ends. *)
Lemma loadAvatarImages_kept (P : GameClient -> Prop) s :
  (forall avatar st, P st -> P (loadAvatarImage avatar st)) -> P s -> P (loadAvatarImages s).
Proof.
  intros Hstep H0. unfold loadAvatarImages, loadAvatarImagesRun.
  apply (map_fold_weak_ind
           (fun (acc : GameClient * bool) (_ : gmap string Avatar) => P (fst acc)));
    [exact H0|]. intros i avatar m acc _ IH.
  destruct (snd acc); [exact IH|]. by apply Hstep.
Qed.

Lemma loadAvatarImages_frame s :
  loadAvatarImages s = set_avatarImages (avatarImages (loadAvatarImages s)) s.
Proof.
  apply (loadAvatarImages_kept (fun st => st = set_avatarImages (avatarImages st) s)).
  - intros avatar st IH. rewrite loadAvatarImage_frame.
    rewrite IH at 2. by destruct s.
  - by destruct s.
Qed.

(** A batch of removal callbacks changes the emote table only. *)
Lemma callbacks_frame (fired : list Timer) : forall s,
  fold_left (fun st tm => timeoutCallback (tm_playerId tm) st) fired s
  = set_activeEmotes
      (activeEmotes (fold_left (fun st tm => timeoutCallback (tm_playerId tm) st) fired s))
      s.
Proof.
  induction fired as [|tm fired IH]; intros s; [by destruct s|].
  cbn [fold_left]. rewrite IH at 1.
  set (r := fold_left _ fired _). by destruct s.
Qed.

Lemma advanceTo_frame t s :
  advanceTo t s
  = set_now t (set_timers (timers (advanceTo t s))
                 (set_activeEmotes (activeEmotes (advanceTo t s)) s)).
Proof.
  unfold advanceTo. rewrite callbacks_frame at 1.
  set (r := fold_left _ _ _). by destruct s.
Qed.

Lemma socket_loadAvatarImages s : socket (loadAvatarImages s) = socket s.
Proof. by rewrite loadAvatarImages_frame. Qed.

Lemma socket_advanceTo t s : socket (advanceTo t s) = socket s.
Proof. by rewrite advanceTo_frame. Qed.

Lemma socket_handleMessage message s : socket (handleMessage message s) = socket s.
Proof.
  destruct message as [[] ? ? ? ?| | | | | |]; cbn [handleMessage];
    unfold addChatMessage, updateCamera, updateMyPosition, showEmote, loadAvatarImage;
    repeat case_match; cbn; rewrite ?socket_loadAvatarImages; done.
Qed.

End Frames.

(** ** Connection channel: what is sent and when *)

Section Channel.

Implicit Types (s : GameClient).

Lemma socket_showEmote playerId emote s : socket (showEmote playerId emote s) = socket s.
Proof. done. Qed.

Lemma socket_addChatMessage username message type s :
  socket (addChatMessage username message type s) = socket s.
Proof. done. Qed.

Lemma outbox_sendEmote emote s :
  outbox (sendEmote emote s)
  = (outbox s ++ if socketOpen s then [OutEmote emote] else [])%list.
Proof.
  unfold sendEmote. destruct (socketOpen s) eqn:E; cbn [negb].
  - unfold outbox at 1. rewrite socket_showEmote. by apply outbox_socketSend.
  - by rewrite app_nil_r.
Qed.

Lemma socketOpen_sendEmote emote s : socketOpen (sendEmote emote s) = socketOpen s.
Proof.
  unfold sendEmote. destruct (socketOpen s) eqn:E; cbn [negb]; [|done].
  unfold socketOpen at 1. rewrite socket_showEmote.
  fold (socketOpen (socketSend (OutEmote emote) s)). by rewrite socketOpen_socketSend.
Qed.

(** The shortcut listener runs [sendEmote] at most once. *)
Lemma emoteShortcut_cases code s :
  emoteShortcut code s = s
  \/ exists emote,
       emote ∈ [ "wave"; "dance"; "jump"; "heart"; "laugh"; "thumbsup" ]
       /\ String.prefix "Digit" code = true
       /\ emoteShortcut code s = sendEmote emote s.
Proof.
  unfold emoteShortcut.
  destruct (String.eqb_spec code "Digit1") as [->|_];
    [right; exists "wave"; split; [set_solver|by split]|].
  destruct (String.eqb_spec code "Digit2") as [->|_];
    [right; exists "dance"; split; [set_solver|by split]|].
  destruct (String.eqb_spec code "Digit3") as [->|_];
    [right; exists "jump"; split; [set_solver|by split]|].
  destruct (String.eqb_spec code "Digit4") as [->|_];
    [right; exists "heart"; split; [set_solver|by split]|].
  destruct (String.eqb_spec code "Digit5") as [->|_];
    [right; exists "laugh"; split; [set_solver|by split]|].
  destruct (String.eqb_spec code "Digit6") as [->|_];
    [right; exists "thumbsup"; split; [set_solver|by split]|].
  by left.
Qed.

Lemma handleKeyDown_unmapped code s :
  movementKeys !! code = None -> inheritedName code = false ->
  handleKeyDown code s = s.
Proof.
  intros H Hplain. unfold handleKeyDown. rewrite (jsRead_undefined _ _ H Hplain).
  by destruct (String.prefix _ _).
Qed.

Lemma handleKeyDown_digit code s :
  String.prefix "Digit" code = true -> handleKeyDown code s = s.
Proof. intros H. unfold handleKeyDown. by rewrite H. Qed.

Lemma inheritedName_not_digit code :
  inheritedName code = true -> String.prefix "Digit" code = false.
Proof.
  intros H. apply existsb_exists in H as (name & Hin & Heq).
  apply String.eqb_eq in Heq. subst name.
  cbn in Hin. repeat (destruct Hin as [<-|Hin]; [reflexivity|]). done.
Qed.

(** A key-down of a code that names a member of [Object.prototype]: the
    read [movementKeys[code]] finds the member, so the code joins the
    held set and a move is handed to the channel with the member as its
    direction. *)
Lemma handleKeyDown_inherited code s :
  movementKeys !! code = None -> inheritedName code = true ->
  pressedKeys (handleKeyDown code s) = pressedKeys s ∪ {[ code ]}
  /\ socketOpen (handleKeyDown code s) = socketOpen s
  /\ outbox (handleKeyDown code s)
     = (outbox s ++ if socketOpen s then [OutMoveMember code] else [])%list.
Proof.
  intros H Hmember. unfold handleKeyDown.
  rewrite (inheritedName_not_digit _ Hmember), (jsRead_inherited _ _ H Hmember).
  unfold sendMoveCommandMember.
  assert (Hopen : socketOpen (set_pressedKeys (pressedKeys s ∪ {[code]}) s) = socketOpen s)
    by done.
  rewrite Hopen. destruct (socketOpen s) eqn:E; cbn [negb].
  - rewrite pressedKeys_socketSend, socketOpen_socketSend, outbox_socketSend by done.
    by rewrite Hopen.
  - by rewrite app_nil_r.
Qed.

Lemma handleKeyUp_inherited code s :
  movementKeys !! code = None -> inheritedName code = true ->
  pressedKeys (handleKeyUp code s) = pressedKeys s ∖ {[ code ]}
  /\ socketOpen (handleKeyUp code s) = socketOpen s
  /\ outbox (handleKeyUp code s)
     = (outbox s ++ if socketOpen s && bool_decide (size (pressedKeys s ∖ {[ code ]}) = 0%nat)
                    then [OutStop] else [])%list.
Proof.
  intros H Hmember. unfold handleKeyUp. rewrite (jsRead_inherited _ _ H Hmember).
  cbn [pressedKeys set_pressedKeys].
  destruct (decide (size (pressedKeys s ∖ {[ code ]}) = 0%nat)) as [Hz|Hnz].
  - rewrite (bool_decide_eq_true_2 _ Hz), andb_true_r.
    split; [|split].
    + unfold sendStopCommand. destruct (negb _); [done|].
      by rewrite pressedKeys_socketSend.
    + unfold sendStopCommand. destruct (negb _); [done|].
      by rewrite socketOpen_socketSend.
    + by rewrite outbox_sendStopCommand.
  - rewrite (bool_decide_eq_false_2 _ Hnz), andb_false_r.
    split; [done|split; [done|]]. cbn. by rewrite app_nil_r.
Qed.



Lemma outbox_sendChatMessage message s :
  outbox (sendChatMessage message s)
  = (outbox s ++ if socketOpen s then [OutChat message] else [])%list.
Proof.
  unfold sendChatMessage. destruct (socketOpen s) eqn:E; cbn [negb].
  - unfold outbox at 1. rewrite socket_addChatMessage. by apply outbox_socketSend.
  - by rewrite app_nil_r.
Qed.

Lemma socketOpen_sendChatMessage message s :
  socketOpen (sendChatMessage message s) = socketOpen s.
Proof.
  unfold sendChatMessage. destruct (socketOpen s) eqn:E; cbn [negb]; [|done].
  unfold socketOpen at 1. rewrite socket_addChatMessage.
  fold (socketOpen (socketSend (OutChat message) s)). by rewrite socketOpen_socketSend.
Qed.

Lemma handleKeyUp_unmapped code s :
  movementKeys !! code = None -> inheritedName code = false ->
  handleKeyUp code s = s.
Proof.
  intros H Hplain. unfold handleKeyUp. by rewrite (jsRead_undefined _ _ H Hplain).
Qed.

(** One event on a connection that is not open: nothing is sent and the
    connection stays as it is, unless the event is the opening itself. *)
Lemma dispatch_while_closed (e : Event) s :
  socketOpen s = false ->
  e <> SocketOpened ->
  socketOpen (dispatch e s) = false /\ outbox (dispatch e s) = outbox s.
Proof.
  intros Hclosed Hne. destruct e; cbn [dispatch].
  - unfold onKeyDown.
    assert (Hdown : socketOpen (handleKeyDown code s) = false
                    /\ outbox (handleKeyDown code s) = outbox s).
    { destruct (movementKeys !! code) as [direction|] eqn:Hkey.
      - destruct (handleKeyDown_mapped code direction s Hkey) as (_ & -> & ->).
        by rewrite Hclosed, app_nil_r.
      - destruct (inheritedName code) eqn:Hmember.
        + destruct (handleKeyDown_inherited code s Hkey Hmember) as (_ & -> & ->).
          by rewrite Hclosed, app_nil_r.
        + by rewrite handleKeyDown_unmapped. }
    destruct Hdown as [Hopen Hout].
    destruct (emoteShortcut_cases code (handleKeyDown code s))
      as [->|(emote & _ & _ & ->)]; [done|].
    by rewrite socketOpen_sendEmote, outbox_sendEmote, Hopen, app_nil_r.
  - destruct (movementKeys !! code) as [direction|] eqn:Hkey.
    + destruct (handleKeyUp_mapped code direction s Hkey) as (_ & -> & ->).
      by rewrite Hclosed, app_nil_r.
    + destruct (inheritedName code) eqn:Hmember.
      * destruct (handleKeyUp_inherited code s Hkey Hmember) as (_ & -> & ->).
        by rewrite Hclosed, app_nil_r.
      * by rewrite handleKeyUp_unmapped.
  - by rewrite socketOpen_sendEmote, outbox_sendEmote, Hclosed, app_nil_r.
  - unfold chatInputEnter. destruct (String.eqb message ""); [done|].
    by rewrite socketOpen_sendChatMessage, outbox_sendChatMessage, Hclosed, app_nil_r.
  - unfold createCustomAvatar.
    set (s1 := set_customAvatar _ s).
    assert (H1 : socketOpen s1 = false) by exact Hclosed.
    by rewrite H1.
  - done.
  - unfold socketOnclose, socketOpen, outbox in *.
    destruct (socket s) as [k|] eqn:E; cbn [socket set_socket]; by rewrite ?E.
  - unfold socketOpen, outbox in *. by rewrite socket_handleMessage.
  - split; [exact Hclosed | reflexivity].
  - unfold worldImageOnload.
    destruct (worldImage s); (split; [exact Hclosed | reflexivity]).
  - split; [exact Hclosed | reflexivity].
  - unfold socketOpen, outbox in *. by rewrite socket_advanceTo.
Qed.

(** X1.  There is no reconnect and no retry.  Once the connection is not
    open, no run of events that does not itself open the socket sends
    anything, and the connection stays not open. *)
Theorem nothing_sent_while_not_open (events : list Event) (s : GameClient) :
  socketOpen s = false ->
  ~ In SocketOpened events ->
  socketOpen (run events s) = false /\ outbox (run events s) = outbox s.
Proof.
  revert s. induction events as [|e events IH]; intros s Hclosed Hno; [done|].
  cbn [run fold_left].
  destruct (dispatch_while_closed e s Hclosed) as [Hc Ho].
  { intros ->. apply Hno. by left. }
  destruct (IH (dispatch e s) Hc) as [Hc' Ho'].
  { intros Hin. apply Hno. by right. }
  split; [exact Hc'|]. unfold run in Ho'. by rewrite Ho', Ho.
Qed.

End Channel.

(** ** Intents on an open connection *)

Section Intents.

Implicit Types (s : GameClient).

Lemma nothing_sent_while_not_open_witness :
  let events := [ KeyDown "ArrowUp"; EmoteButton "wave"; ChatEnter "hello";
                  KeyUp "ArrowUp"; SocketClosed; ClockReached 5000 ] in
  socketOpen freshClient = false
  /\ ~ In SocketOpened events
  /\ outbox (run events freshClient) = outbox freshClient.
Proof.
  intros events.
  assert (Hclosed : socketOpen freshClient = false) by reflexivity.
  assert (Hno : ~ In SocketOpened events).
  { intros H. repeat (destruct H as [H|H]; [discriminate H|]). exact H. }
  split; [exact Hclosed | split; [exact Hno|]].
  exact (proj2 (nothing_sent_while_not_open events freshClient Hclosed Hno)).
Defined.

(** X4.  On an open connection the release of a mapped key sends [stop]
    exactly when no other key stays held, which includes the release of
    a key that was not held; otherwise it sends nothing. *)
Theorem keyup_stops_when_last_key (s : GameClient) (code direction : string) :
  movementKeys !! code = Some direction ->
  socketOpen s = true ->
  (pressedKeys s ⊆ {[ code ]} ->
   outbox (handleKeyUp code s) = (outbox s ++ [OutStop])%list)
  /\ (forall other, other ∈ pressedKeys s -> other <> code ->
      outbox (handleKeyUp code s) = outbox s).
Proof.
  intros Hkey Hopen.
  destruct (handleKeyUp_mapped code direction s Hkey) as (_ & _ & Hout).
  rewrite Hopen in Hout. cbn [andb] in Hout. split.
  - intros Hsub. rewrite Hout, bool_decide_eq_true_2; [done|].
    apply size_empty_iff. intros k. rewrite elem_of_difference, elem_of_singleton.
    split; [|by intros ?%not_elem_of_empty].
    intros [Hin Hne]. specialize (Hsub k Hin). by apply elem_of_singleton in Hsub.
  - intros other Hin Hne. rewrite Hout, bool_decide_eq_false_2; [by rewrite app_nil_r|].
    intros Hz. apply size_empty_iff in Hz. apply (not_elem_of_empty (C := gset string) other).
    apply Hz. rewrite elem_of_difference, elem_of_singleton. done.
Qed.

Lemma keyup_stops_when_last_key_witness :
  movementKeys !! "ArrowLeft" = Some "left"
  /\ socketOpen connectedClient = true
  /\ pressedKeys connectedClient ⊆ {[ "ArrowLeft" ]}
  /\ outbox (handleKeyUp "ArrowLeft" connectedClient)
     = (outbox connectedClient ++ [OutStop])%list.
Proof.
  assert (Hkey : movementKeys !! "ArrowLeft" = Some "left") by reflexivity.
  assert (Hopen : socketOpen connectedClient = true) by reflexivity.
  assert (Hsub : pressedKeys connectedClient ⊆ ({[ "ArrowLeft" ]} : gset string)).
  { intros k Hk. exfalso. revert Hk. apply not_elem_of_empty. }
  split; [exact Hkey | split; [exact Hopen | split; [exact Hsub|]]].
  exact (proj1 (keyup_stops_when_last_key connectedClient "ArrowLeft" "left" Hkey Hopen)
           Hsub).
Defined.

(** X5.  A repeated key-down of a key that is already held (keyboard
    auto-repeat) leaves the held set as it is and sends the move again. *)
Theorem keydown_repeat_resends (s : GameClient) (code direction : string) :
  movementKeys !! code = Some direction ->
  socketOpen s = true ->
  code ∈ pressedKeys s ->
  pressedKeys (handleKeyDown code s) = pressedKeys s
  /\ outbox (handleKeyDown code s) = (outbox s ++ [OutMove direction])%list.
Proof.
  intros Hkey Hopen Hheld.
  destruct (handleKeyDown_mapped code direction s Hkey) as (Hp & _ & Hout).
  rewrite Hopen in Hout. split; [|exact Hout].
  rewrite Hp. apply set_eq. intros k. rewrite elem_of_union, elem_of_singleton.
  split; [intros [?| ->]; done | by left].
Qed.

Lemma keydown_repeat_resends_witness :
  let s := handleKeyDown "ArrowUp" connectedClient in
  movementKeys !! "ArrowUp" = Some "up"
  /\ socketOpen s = true
  /\ "ArrowUp" ∈ pressedKeys s
  /\ outbox (handleKeyDown "ArrowUp" s) = (outbox s ++ [OutMove "up"])%list.
Proof.
  intros s.
  assert (Hkey : movementKeys !! "ArrowUp" = Some "up") by reflexivity.
  assert (Hopen : socketOpen s = true) by reflexivity.
  assert (Hheld : "ArrowUp" ∈ pressedKeys s).
  { destruct (handleKeyDown_mapped "ArrowUp" "up" connectedClient Hkey) as (Hp & _).
    fold s in Hp. rewrite Hp. apply elem_of_union. right. by apply elem_of_singleton. }
  split; [exact Hkey | split; [exact Hopen | split; [exact Hheld|]]].
  exact (proj2 (keydown_repeat_resends s "ArrowUp" "up" Hkey Hopen Hheld)).
Defined.

(** X7.  On an open connection a chat line is sent once and echoed at once
    as the newest entry of the log, marked as the user's own. *)
Theorem sendChatMessage_echoes (s : GameClient) (message : string) :
  socketOpen s = true ->
  let s' := sendChatMessage message s in
  outbox s' = (outbox s ++ [OutChat message])%list
  /\ last (chatMessages s')
     = Some {| cm_username := "You"; cm_message := message;
               cm_timestamp := now s; cm_type := own |}
  /\ (length (chatMessages s) <= 50 -> length (chatMessages s') <= 50)%nat.
Proof.
  intros Hopen s'. subst s'. split; [|split].
  - by rewrite outbox_sendChatMessage, Hopen.
  - unfold sendChatMessage. rewrite Hopen. cbn [negb].
    rewrite addChatMessage_last. f_equal.
    unfold socketSend. by destruct (socket s).
  - intros Hlen. unfold sendChatMessage. rewrite Hopen. cbn [negb].
    apply addChatMessage_bounded. unfold socketSend. by destruct (socket s).
Qed.

Lemma sendChatMessage_echoes_witness :
  socketOpen fullChatClient = true
  /\ (length (chatMessages fullChatClient) <= 50)%nat
  /\ (length (chatMessages (sendChatMessage "hello" fullChatClient)) <= 50)%nat
  /\ last (chatMessages (sendChatMessage "hello" fullChatClient))
     = Some {| cm_username := "You"; cm_message := "hello";
               cm_timestamp := now fullChatClient; cm_type := own |}.
Proof.
  assert (Hopen : socketOpen fullChatClient = true) by reflexivity.
  assert (Hlen : (length (chatMessages fullChatClient) <= 50)%nat)
    by (vm_compute; lia).
  split; [exact Hopen | split; [exact Hlen|]].
  destruct (sendChatMessage_echoes fullChatClient "hello" Hopen) as (_ & Hlast & Hcap).
  split; [exact (Hcap Hlen) | exact Hlast].
Defined.

Lemma activeEmotes_showEmote playerId emote s :
  activeEmotes (showEmote playerId emote s)
  = <[ playerId := {| em_type := emote; em_startTime := now s |} ]> (activeEmotes s).
Proof. done. Qed.

Lemma timers_showEmote playerId emote s :
  timers (showEmote playerId emote s)
  = (timers s ++ [ {| tm_due := (now s + emoteDuration)%Z; tm_playerId := playerId |} ])%list.
Proof. done. Qed.

Lemma now_showEmote playerId emote s : now (showEmote playerId emote s) = now s.
Proof. done. Qed.

(** X8.  On an open connection an emote is sent once and shown at once for
    the local player, with its removal due one duration later.  Before
    the join is acknowledged there is no local id and the emote is filed
    under the key "null", where it is drawn for no player with another
    id. *)
Theorem sendEmote_shows_locally (s : GameClient) (emote : string) :
  socketOpen s = true ->
  let s' := sendEmote emote s in
  let key := keyOf (myPlayerId s) in
  outbox s' = (outbox s ++ [OutEmote emote])%list
  /\ activeEmotes s' !! key = Some {| em_type := emote; em_startTime := now s |}
  /\ timers s'
     = (timers s ++ [ {| tm_due := (now s + 3000)%Z; tm_playerId := key |} ])%list
  /\ (myPlayerId s = None ->
      key = "null"
      /\ forall playerId x y,
           playerId <> "null" ->
           drawEmote playerId x y s' = drawEmote playerId x y s).
Proof.
  intros Hopen s' key. subst s'.
  split; [by rewrite outbox_sendEmote, Hopen|].
  unfold sendEmote. rewrite Hopen. cbn [negb].
  assert (Hnow : now (socketSend (OutEmote emote) s) = now s)
    by (unfold socketSend; by destruct (socket s)).
  assert (Htm : timers (socketSend (OutEmote emote) s) = timers s)
    by (unfold socketSend; by destruct (socket s)).
  assert (Hem : activeEmotes (socketSend (OutEmote emote) s) = activeEmotes s)
    by (unfold socketSend; by destruct (socket s)).
  fold key.
  rewrite activeEmotes_showEmote, timers_showEmote, Hnow, Htm, Hem.
  split; [by rewrite lookup_insert_eq|]. split; [done|].
  intros Hnone. unfold key. rewrite Hnone. split; [done|].
  intros playerId x y Hne. unfold drawEmote.
  rewrite activeEmotes_showEmote, now_showEmote, Hnow, Hem.
  cbn [keyOf]. by rewrite lookup_insert_ne.
Qed.

Lemma sendEmote_shows_locally_witness :
  socketOpen connectedClient = true
  /\ myPlayerId connectedClient = None
  /\ activeEmotes (sendEmote "wave" connectedClient) !! "null"
     = Some {| em_type := "wave"; em_startTime := now connectedClient |}.
Proof.
  assert (Hopen : socketOpen connectedClient = true) by reflexivity.
  assert (Hnone : myPlayerId connectedClient = None) by reflexivity.
  split; [exact Hopen | split; [exact Hnone|]].
  exact (proj1 (proj2 (sendEmote_shows_locally connectedClient "wave" Hopen))).
Defined.

(** X9.  An uploaded picture becomes the avatar "custom_avatar" with the
    same three frames for north, south and east and none for west.  On an
    open connection it is sent at once in a new join; otherwise it is
    kept and goes out with the join sent when the socket opens. *)
Theorem createCustomAvatar_joins (s : GameClient) (base64Image : string) :
  let s' := createCustomAvatar base64Image s in
  exists avatar,
    customAvatar s' = Some avatar
    /\ av_name avatar = "custom_avatar"
    /\ (forall direction, direction ∈ [ "north"; "south"; "east" ] ->
          av_frames avatar !! direction
          = Some [ base64Image; base64Image; base64Image ])
    /\ av_frames avatar !! "west" = None
    /\ (socketOpen s = true ->
        outbox s' = (outbox s ++ [OutJoin "Melvin" (Some avatar)])%list)
    /\ (socketOpen s = false ->
        outbox s' = outbox s
        /\ (is_Some (socket s) ->
            outbox (socketOnopen s')
            = (outbox s ++ [OutJoin "Melvin" (Some avatar)])%list)).
Proof.
  intros s'. subst s'. unfold createCustomAvatar.
  set (avatar := {| av_name := "custom_avatar"; av_frames := _ |}).
  set (s1 := set_customAvatar (Some avatar) s).
  assert (H1 : socketOpen s1 = socketOpen s) by done.
  exists avatar. rewrite H1.
  assert (Hframes : forall direction, direction ∈ [ "north"; "south"; "east" ] ->
            av_frames avatar !! direction
            = Some [ base64Image; base64Image; base64Image ]).
  { intros direction Hin.
    repeat (apply elem_of_cons in Hin as [->|Hin]; [reflexivity|]).
    by apply elem_of_nil in Hin. }
  destruct (socketOpen s) eqn:Hopen.
  - split; [|split; [done|split; [exact Hframes|split; [reflexivity|split; [|done]]]]].
    + unfold rejoinWithCustomAvatar, socketSend. cbn. by destruct (socket s).
    + intros _. unfold rejoinWithCustomAvatar. cbn [customAvatar s1 set_customAvatar].
      by rewrite outbox_socketSend.
  - split; [done|split; [done|split; [exact Hframes|split; [reflexivity|split; [done|]]]]].
    intros _. split; [done|]. intros [k Hk].
    unfold socketOnopen, joinGame, socketSend, outbox. cbn [socket s1 set_customAvatar].
    rewrite Hk. cbn [socket set_socket customAvatar readyState sent]. done.
Qed.

Lemma createCustomAvatar_joins_witness :
  socketOpen freshClient = false
  /\ is_Some (socket freshClient)
  /\ exists avatar,
       av_frames avatar !! "west" = None
       /\ outbox (socketOnopen (createCustomAvatar "data:image/png;base64,AAAA" freshClient))
          = (outbox freshClient ++ [OutJoin "Melvin" (Some avatar)])%list.
Proof.
  assert (Hclosed : socketOpen freshClient = false) by reflexivity.
  assert (Hsock : is_Some (socket freshClient)) by (eexists; reflexivity).
  split; [exact Hclosed | split; [exact Hsock|]].
  destruct (createCustomAvatar_joins freshClient "data:image/png;base64,AAAA")
    as (avatar & _ & _ & _ & Hwest & _ & Hlater).
  exists avatar. split; [exact Hwest|]. exact (proj2 (Hlater Hclosed) Hsock).
Defined.

End Intents.

(** ** Invariants of the event loop *)

Section Invariants.

Implicit Types (s : GameClient) (e : Event).

(** Induction over the states the page can reach. *)
Lemma reachable_ind (P : GameClient -> Prop) :
  (forall innerWidth innerHeight clock, P (init innerWidth innerHeight (constructed clock))) ->
  (forall e s, P s -> P (dispatch e s)) ->
  forall s, reachable s -> P s.
Proof.
  intros Hinit Hstep s (w & h & c & events & ->).
  generalize (Hinit w h c). generalize (init w h (constructed c)).
  induction events as [|e events IH]; intros s0 H0; [exact H0|].
  cbn [run fold_left]. apply (IH (dispatch e s0)). by apply Hstep.
Qed.

Lemma reachable_run events s : reachable s -> reachable (run events s).
Proof.
  intros (w & h & c & before & ->). exists w, h, c, (before ++ events)%list.
  unfold run. by rewrite fold_left_app.
Qed.

Lemma joinedClient_reachable : reachable joinedClient.
Proof.
  exists 800%Z, 600%Z, 0%Z,
    [ SocketOpened;
      SocketMessage (InJoinGame true (Some "p1") {[ "p1" := eve; "p2" := bob ]}
                       {[ "knight" := knight ]} "");
      FrameLoaded "knight" "east" 0 knightEast0;
      WorldImageLoaded 2048 2048 ].
  unfold joinedClient, joinedWhileMapLoads, connectedClient, freshClient.
  cbn [run fold_left dispatch]. reflexivity.
Qed.

Lemma pressedKeys_sendEmote emote s : pressedKeys (sendEmote emote s) = pressedKeys s.
Proof. unfold sendEmote, showEmote, socketSend. by repeat case_match. Qed.

Lemma pressedKeys_loadAvatarImages s : pressedKeys (loadAvatarImages s) = pressedKeys s.
Proof. by rewrite loadAvatarImages_frame. Qed.

Lemma pressedKeys_handleMessage message s :
  pressedKeys (handleMessage message s) = pressedKeys s.
Proof.
  destruct message as [[] ? ? ? ?| | | | | |]; cbn [handleMessage];
    unfold addChatMessage, updateCamera, updateMyPosition, showEmote, loadAvatarImage;
    repeat case_match; cbn; rewrite ?pressedKeys_loadAvatarImages; done.
Qed.

(** Events other than key events leave the held set alone. *)
Lemma pressedKeys_dispatch e s :
  (forall code, e <> KeyDown code) -> (forall code, e <> KeyUp code) ->
  pressedKeys (dispatch e s) = pressedKeys s.
Proof.
  intros Hd Hu. destruct e; cbn [dispatch].
  - by destruct (Hd code).
  - by destruct (Hu code).
  - apply pressedKeys_sendEmote.
  - unfold chatInputEnter, sendChatMessage, addChatMessage, socketSend.
    by repeat case_match.
  - unfold createCustomAvatar, rejoinWithCustomAvatar, socketSend.
    by repeat case_match.
  - unfold socketOnopen, joinGame, socketSend. cbn. by repeat case_match.
  - unfold socketOnclose. by repeat case_match.
  - apply pressedKeys_handleMessage.
  - done.
  - unfold worldImageOnload. by repeat case_match.
  - done.
  - by rewrite advanceTo_frame.
Qed.

Lemma heldKeysMapped_dispatch e s : heldKeysMapped s -> heldKeysMapped (dispatch e s).
Proof.
  intros Hinv.
  destruct e as [code|code| | | | | | | | | |];
    try (unfold heldKeysMapped; rewrite pressedKeys_dispatch by done; exact Hinv).
  - cbn [dispatch]. unfold onKeyDown.
    assert (Hdown : heldKeysMapped (handleKeyDown code s)).
    { destruct (movementKeys !! code) as [direction|] eqn:Hkey.
      - destruct (handleKeyDown_mapped code direction s Hkey) as (Hp & _).
        intros k. rewrite Hp, elem_of_union, elem_of_singleton.
        intros [Hk| ->]; [by apply Hinv | left; by rewrite Hkey].
      - destruct (inheritedName code) eqn:Hmember.
        + destruct (handleKeyDown_inherited code s Hkey Hmember) as (Hp & _).
          intros k. rewrite Hp, elem_of_union, elem_of_singleton.
          intros [Hk| ->]; [by apply Hinv | by right].
        + by rewrite handleKeyDown_unmapped. }
    destruct (emoteShortcut_cases code (handleKeyDown code s))
      as [->|(emote & _ & _ & ->)]; [done|].
    unfold heldKeysMapped. by rewrite pressedKeys_sendEmote.
  - cbn [dispatch]. destruct (movementKeys !! code) as [direction|] eqn:Hkey.
    + destruct (handleKeyUp_mapped code direction s Hkey) as (Hp & _).
      intros k. rewrite Hp, elem_of_difference. intros [Hk _]. by apply Hinv.
    + destruct (inheritedName code) eqn:Hmember.
      * destruct (handleKeyUp_inherited code s Hkey Hmember) as (Hp & _).
        intros k. rewrite Hp, elem_of_difference. intros [Hk _]. by apply Hinv.
      * by rewrite handleKeyUp_unmapped.
Qed.

(** X6.  In every state the page can reach, a held code is a key of
    [movementKeys] or the name of a member of [Object.prototype], the
    codes for which the test [movementKeys[code]] passes; hence at most
    16 codes are held, and no Digit key is ever held. *)
Theorem held_keys_are_movement_keys (s : GameClient) :
  reachable s ->
  heldKeysMapped s
  /\ (size (pressedKeys s) <= 16)%nat
  /\ (forall code, code ∈ pressedKeys s -> String.prefix "Digit" code = false).
Proof.
  intros Hreach.
  assert (Hinv : heldKeysMapped s).
  { revert s Hreach. apply reachable_ind.
    - intros w h c code Hin. exfalso. revert Hin. apply not_elem_of_empty.
    - intros e s. apply heldKeysMapped_dispatch. }
  split; [exact Hinv|]. split.
  - assert (Hsub : pressedKeys s ⊆ dom movementKeys ∪ list_to_set objectPrototypeMembers).
    { intros k Hk. apply elem_of_union. destruct (Hinv k Hk) as [Hkey|Hmember].
      - left. by apply elem_of_dom.
      - right. apply elem_of_list_to_set.
        apply existsb_exists in Hmember as (name & Hin & Heq).
        apply String.eqb_eq in Heq. subst name. by apply list_elem_of_In. }
    apply subseteq_size in Hsub.
    assert (Hcount : size (dom movementKeys ∪ list_to_set objectPrototypeMembers
                           : gset string) = 16%nat).
    { vm_compute. reflexivity. }
    lia.
  - intros code Hk. destruct (Hinv code Hk) as [[direction Hkey]|Hmember].
    + by eapply movementKeys_not_digit.
    + by apply inheritedName_not_digit.
Qed.

Lemma held_keys_are_movement_keys_witness :
  let s := run [ KeyDown "ArrowUp"; KeyDown "KeyW"; KeyDown "Digit1";
                 KeyDown "constructor"; KeyDown "ArrowLeft" ]
             connectedClient in
  reachable s /\ (size (pressedKeys s) <= 16)%nat.
Proof.
  intros s.
  assert (Hreach : reachable s).
  { exists 800%Z, 600%Z, 0%Z,
      [ SocketOpened; KeyDown "ArrowUp"; KeyDown "KeyW"; KeyDown "Digit1";
        KeyDown "constructor"; KeyDown "ArrowLeft" ].
    unfold s, connectedClient, freshClient.
    cbn [run fold_left dispatch]. reflexivity. }
  split; [exact Hreach|]. exact (proj1 (proj2 (held_keys_are_movement_keys s Hreach))).
Defined.

Lemma chatMessages_dispatch_bounded e s :
  (length (chatMessages s) <= maxChatMessages)%nat ->
  (length (chatMessages (dispatch e s)) <= maxChatMessages)%nat.
Proof.
  intros Hlen.
  assert (Hsend : forall m, chatMessages (socketSend m s) = chatMessages s)
    by (intros m; unfold socketSend; by destruct (socket s)).
  assert (Hemote : forall emote st,
            chatMessages (sendEmote emote st) = chatMessages st).
  { intros emote st. unfold sendEmote, showEmote, socketSend. by repeat case_match. }
  destruct e; cbn [dispatch].
  - unfold onKeyDown.
    assert (Hdown : chatMessages (handleKeyDown code s) = chatMessages s).
    { unfold handleKeyDown, jsRead, sendMoveCommand, sendMoveCommandMember, socketSend. by repeat case_match. }
    destruct (emoteShortcut_cases code (handleKeyDown code s))
      as [->|(emote & _ & _ & ->)]; rewrite ?Hemote, Hdown; exact Hlen.
  - unfold handleKeyUp, jsRead, sendStopCommand, socketSend. by repeat case_match.
  - by rewrite Hemote.
  - unfold chatInputEnter, sendChatMessage. repeat case_match; try done.
    apply addChatMessage_bounded. by rewrite Hsend.
  - unfold createCustomAvatar, rejoinWithCustomAvatar, socketSend.
    by repeat case_match.
  - unfold socketOnopen, joinGame, socketSend. cbn. by repeat case_match.
  - unfold socketOnclose. by repeat case_match.
  - destruct message as [[] joined roster looks error|moved|player avatar|playerId
                          |playerId emote|username text|action];
      cbn [handleMessage].
    + destruct (loadAvatarImagesThrows _); [by rewrite loadAvatarImages_frame|].
      apply addChatMessage_bounded. cbn [updateCamera set_camera chatMessages].
      assert (Hpos : forall st, chatMessages (updateMyPosition st) = chatMessages st).
      { intros st. unfold updateMyPosition, jsRead. by repeat case_match. }
      by rewrite Hpos, loadAvatarImages_frame.
    + by apply addChatMessage_bounded.
    + unfold updateCamera, updateMyPosition, jsRead. repeat case_match; exact Hlen.
    + destruct (loadAvatarImageThrows _ _); [|apply addChatMessage_bounded];
        unfold loadAvatarImage; repeat case_match; exact Hlen.
    + destruct (jsRead (players s) playerId); [| |exact Hlen];
        by apply addChatMessage_bounded.
    + exact Hlen.
    + by apply addChatMessage_bounded.
    + exact Hlen.
  - done.
  - unfold worldImageOnload. by repeat case_match.
  - done.
  - by rewrite advanceTo_frame.
Qed.

(** X10.  The chat log holds at most 50 entries in every state the page can
    reach, whichever handler added the lines. *)
Theorem chat_log_capped_everywhere (s : GameClient) :
  reachable s -> (length (chatMessages s) <= 50)%nat.
Proof.
  revert s. apply reachable_ind.
  - intros w h c. cbn. lia.
  - intros e s. apply chatMessages_dispatch_bounded.
Qed.

Lemma chat_log_capped_everywhere_witness :
  let s := run [ ChatEnter "hello"; SocketMessage (InChat "Bob" "hi");
                 SocketMessage (InPlayerLeft "p2") ] joinedClient in
  reachable s /\ (length (chatMessages s) <= 50)%nat.
Proof.
  intros s.
  assert (Hreach : reachable s) by apply reachable_run, joinedClient_reachable.
  split; [exact Hreach|]. exact (chat_log_capped_everywhere s Hreach).
Defined.

End Invariants.

(** ** Asset cache *)

Section Assets.

Implicit Types (s : GameClient).

Lemma loadAvatarImage_known avatar s :
  is_Some (avatarImages s !! av_name avatar) -> loadAvatarImage avatar s = s.
Proof. intros [d Hd]. unfold loadAvatarImage. by rewrite (jsRead_own _ _ _ Hd). Qed.

Lemma loadAvatarImage_inherited avatar s :
  avatarImages s !! av_name avatar = None -> inheritedName (av_name avatar) = true ->
  loadAvatarImage avatar s = s.
Proof. intros Hd Hin. unfold loadAvatarImage. by rewrite (jsRead_inherited _ _ Hd Hin). Qed.

Lemma loadAvatarImage_covers avatar s :
  inheritedName (av_name avatar) = false ->
  is_Some (avatarImages (loadAvatarImage avatar s) !! av_name avatar).
Proof.
  intros Hin. unfold loadAvatarImage.
  destruct (avatarImages s !! av_name avatar) eqn:E.
  - rewrite (jsRead_own _ _ _ E). by rewrite E.
  - rewrite (jsRead_undefined _ _ E Hin).
    cbn [avatarImages set_avatarImages]. rewrite lookup_insert_eq. by eexists.
Qed.

Lemma loadAvatarImage_keeps avatar s name directions :
  avatarImages s !! name = Some directions ->
  avatarImages (loadAvatarImage avatar s) !! name = Some directions.
Proof.
  intros H. unfold loadAvatarImage, jsRead.
  destruct (avatarImages s !! av_name avatar) eqn:E; [done|].
  destruct (inheritedName (av_name avatar)); [done|].
  cbn [avatarImages set_avatarImages]. rewrite lookup_insert_ne; [done|].
  intros <-. congruence.
Qed.

Lemma loadAvatarImage_again (first second : Avatar) s :
  av_name second = av_name first ->
  loadAvatarImage second (loadAvatarImage first s) = loadAvatarImage first s.
Proof.
  intros Hname. destruct (avatarImages s !! av_name first) eqn:E.
  - rewrite (loadAvatarImage_known first s) by (by rewrite E).
    apply loadAvatarImage_known. rewrite Hname, E. by eexists.
  - destruct (inheritedName (av_name first)) eqn:Hin.
    + rewrite (loadAvatarImage_inherited first s E Hin).
      apply loadAvatarImage_inherited; by rewrite Hname.
    + apply loadAvatarImage_known. rewrite Hname. by apply loadAvatarImage_covers.
Qed.

(** X11.  The frame cache is keyed by the avatar's name alone.  Loading an
    avatar whose name is cached changes nothing, whatever frames the
    definition carries, so loading is idempotent and a second definition
    under a cached name never replaces the decoded frames. *)
Theorem loadAvatarImage_caches_by_name (first second : Avatar) (s : GameClient) :
  av_name second = av_name first ->
  loadAvatarImage second (loadAvatarImage first s) = loadAvatarImage first s
  /\ loadAvatarImage first (loadAvatarImage first s) = loadAvatarImage first s
  /\ (forall name directions,
        avatarImages s !! name = Some directions ->
        avatarImages (loadAvatarImage first s) !! name = Some directions).
Proof.
  intros Hname. split; [|split].
  - by apply loadAvatarImage_again.
  - by apply loadAvatarImage_again.
  - intros name directions. apply loadAvatarImage_keeps.
Qed.

Lemma loadAvatarImage_caches_by_name_witness :
  let restyled := {| av_name := "knight"; av_frames := {[ "east" := [ "new.png" ] ]} |} in
  av_name restyled = av_name knight
  /\ loadAvatarImage restyled (loadAvatarImage knight connectedClient)
     = loadAvatarImage knight connectedClient.
Proof.
  intros restyled.
  assert (Hname : av_name restyled = av_name knight) by reflexivity.
  split; [exact Hname|].
  exact (proj1 (loadAvatarImage_caches_by_name knight restyled connectedClient Hname)).
Defined.

(** What the loop over the directions leaves: all three when the
    definition has frames for all three, otherwise the directions up to
    the first one without frames. *)
Lemma startDirections_shaped (frames : gmap string (list string)) :
  entryShaped (fst (startDirections frames storedDirections ∅)).
Proof.
  unfold entryShaped, storedDirections. cbn [startDirections].
  destruct (frames !! "north"); [|cbn [fst]].
  - destruct (frames !! "south"); [|cbn [fst]].
    + destruct (frames !! "east"); cbn [fst];
        rewrite !dom_insert_L, dom_empty_L; set_solver.
    + rewrite !dom_insert_L, dom_empty_L. set_solver.
  - rewrite !dom_insert_L, dom_empty_L. set_solver.
Qed.


Lemma loadAvatarImage_shaped avatar s : cacheShaped s -> cacheShaped (loadAvatarImage avatar s).
Proof.
  intros Hinv name directions. unfold loadAvatarImage, jsRead.
  destruct (avatarImages s !! av_name avatar) eqn:E; [by apply Hinv|].
  destruct (inheritedName (av_name avatar)); [by apply Hinv|].
  cbn [avatarImages set_avatarImages]. rewrite lookup_insert_Some.
  intros [[_ <-]|[_ H]]; [|by eapply Hinv].
  apply startDirections_shaped.
Qed.

Lemma frameOnload_shaped name direction index img s :
  cacheShaped s -> cacheShaped (frameOnload name direction index img s).
Proof.
  intros Hinv n directions. unfold frameOnload.
  cbn [avatarImages set_avatarImages]. rewrite lookup_alter.
  case_decide as Hn; [|by apply Hinv]. subst n.
  destruct (avatarImages s !! name) as [d|] eqn:E; [|discriminate].
  cbn. intros [= <-]. unfold entryShaped. rewrite dom_alter_L. by eapply Hinv.
Qed.

Lemma cacheShaped_same s s' :
  avatarImages s' = avatarImages s -> cacheShaped s -> cacheShaped s'.
Proof. intros H Hinv name directions. rewrite H. apply Hinv. Qed.

Lemma avatarImages_sendEmote emote s : avatarImages (sendEmote emote s) = avatarImages s.
Proof. unfold sendEmote, showEmote, socketSend. by repeat case_match. Qed.

Lemma cacheShaped_dispatch (e : Event) s : cacheShaped s -> cacheShaped (dispatch e s).
Proof.
  intros Hinv. destruct e; cbn [dispatch].
  - unfold onKeyDown.
    assert (Hdown : avatarImages (handleKeyDown code s) = avatarImages s).
    { unfold handleKeyDown, jsRead, sendMoveCommand, sendMoveCommandMember, socketSend. by repeat case_match. }
    destruct (emoteShortcut_cases code (handleKeyDown code s))
      as [->|(emote & _ & _ & ->)];
      eapply cacheShaped_same; try exact Hinv; by rewrite ?avatarImages_sendEmote.
  - eapply cacheShaped_same; [|exact Hinv].
    unfold handleKeyUp, jsRead, sendStopCommand, socketSend. by repeat case_match.
  - eapply cacheShaped_same; [apply avatarImages_sendEmote | exact Hinv].
  - eapply cacheShaped_same; [|exact Hinv].
    unfold chatInputEnter, sendChatMessage, addChatMessage, socketSend.
    by repeat case_match.
  - eapply cacheShaped_same; [|exact Hinv].
    unfold createCustomAvatar, rejoinWithCustomAvatar, socketSend.
    by repeat case_match.
  - eapply cacheShaped_same; [|exact Hinv].
    unfold socketOnopen, joinGame, socketSend. cbn. by repeat case_match.
  - eapply cacheShaped_same; [|exact Hinv].
    unfold socketOnclose. by repeat case_match.
  - destruct message as [[] joined roster looks error|moved|player avatar|playerId
                          |playerId emote|username text|action];
      cbn [handleMessage]; try exact Hinv.
    + eapply cacheShaped_same with
        (s := loadAvatarImages
                (set_avatars looks (set_players roster (set_myPlayerId joined s)))).
      * unfold addChatMessage, updateCamera, updateMyPosition, jsRead.
        by repeat case_match.
      * apply loadAvatarImages_kept; [intros; by apply loadAvatarImage_shaped|exact Hinv].
    + eapply cacheShaped_same; [|exact Hinv].
      unfold updateCamera, updateMyPosition, jsRead. by repeat case_match.
    + eapply cacheShaped_same with
        (s := loadAvatarImage avatar
                (set_avatars (<[ av_name avatar := avatar ]> (avatars s))
                   (set_players (<[ pl_id player := player ]> (players s)) s))).
      * by destruct (loadAvatarImageThrows _ _).
      * by apply loadAvatarImage_shaped.
    + eapply cacheShaped_same; [|exact Hinv]. by destruct (jsRead (players s) playerId).
  - exact Hinv.
  - eapply cacheShaped_same; [|exact Hinv].
    unfold worldImageOnload. by repeat case_match.
  - by apply frameOnload_shaped.
  - eapply cacheShaped_same; [|exact Hinv]. by rewrite advanceTo_frame.
Qed.

(** X12.  In every state the page can reach, each entry of the frame cache
    holds no direction but north, south and east: frames for west are
    never stored.  North is always there, and south whenever east is;
    an entry falls short of the three only when its avatar's definition
    lacked the frames of a direction and the load threw there. *)
Theorem cache_never_stores_west (s : GameClient) :
  reachable s ->
  cacheShaped s
  /\ (forall name directions,
        avatarImages s !! name = Some directions ->
        directions !! "west" = None
        /\ is_Some (directions !! "north")
        /\ (is_Some (directions !! "east") -> is_Some (directions !! "south"))).
Proof.
  intros Hreach.
  assert (Hinv : cacheShaped s).
  { revert s Hreach. apply reachable_ind.
    - intros w h c name directions H. cbn in H. by rewrite lookup_empty in H.
    - intros e s. apply cacheShaped_dispatch. }
  split; [exact Hinv|]. intros name directions H.
  destruct (Hinv name directions H) as (Hsub & Hnorth & Hsouth).
  split; [|split].
  - apply not_elem_of_dom. intros Hwest. specialize (Hsub _ Hwest).
    rewrite !elem_of_union, !elem_of_singleton in Hsub.
    destruct Hsub as [[?|?]|?]; discriminate.
  - by apply elem_of_dom.
  - rewrite <- !elem_of_dom. exact Hsouth.
Qed.

Lemma cache_never_stores_west_witness :
  reachable joinedClient
  /\ (forall directions,
        avatarImages joinedClient !! "knight" = Some directions ->
        directions !! "west" = None).
Proof.
  split; [exact joinedClient_reachable|]. intros directions H.
  exact (proj1 (proj2 (cache_never_stores_west joinedClient joinedClient_reachable)
                  "knight" directions H)).
Defined.

(** X13.  A decoded frame is stored at its index of its direction and no
    other frame is touched, so frames may arrive in any order and a
    partly loaded avatar keeps what it has. *)
Theorem frameOnload_stores_frame (s : GameClient) (name direction : string)
    (index : nat) (img : Image) (directions : gmap string (gmap nat Image))
    (frames : gmap nat Image) :
  avatarImages s !! name = Some directions ->
  directions !! direction = Some frames ->
  let s' := frameOnload name direction index img s in
  avatarImages s' !! name
  = Some (<[ direction := <[ index := img ]> frames ]> directions)
  /\ (forall other, other <> name -> avatarImages s' !! other = avatarImages s !! other)
  /\ (<[ index := img ]> frames) !! index = Some img
  /\ (forall j, j <> index -> (<[ index := img ]> frames) !! j = frames !! j).
Proof.
  intros Hname Hdir s'. subst s'. unfold frameOnload.
  cbn [avatarImages set_avatarImages]. split; [|split; [|split]].
  - rewrite lookup_alter_eq, Hname. cbn. f_equal. apply map_eq. intros d.
    rewrite lookup_alter, lookup_insert. case_decide as Hd; [|done].
    subst d. by rewrite Hdir.
  - intros other Hne. by rewrite lookup_alter_ne.
  - apply lookup_insert_eq.
  - intros j Hne. by rewrite lookup_insert_ne.
Qed.

Lemma frameOnload_stores_frame_witness :
  let img := {| img_src := "s0.png"; img_complete := true;
                img_width := 24; img_height := 32 |} in
  exists directions,
    avatarImages joinedClient !! "knight" = Some directions
    /\ directions !! "south" = Some ∅
    /\ avatarImages (frameOnload "knight" "south" 0 img joinedClient) !! "knight"
       = Some (<[ "south" := <[ 0%nat := img ]> ∅ ]> directions).
Proof.
  intros img.
  exists (<[ "east" := {[ 0%nat := knightEast0 ]} ]>
            ({[ "north" := ∅; "south" := ∅; "east" := ∅ ]}
             : gmap string (gmap nat Image))).
  assert (Hname : avatarImages joinedClient !! "knight"
                  = Some (<[ "east" := {[ 0%nat := knightEast0 ]} ]>
                            ({[ "north" := ∅; "south" := ∅; "east" := ∅ ]}
                             : gmap string (gmap nat Image))))
    by (vm_compute; reflexivity).
  assert (Hdir : (<[ "east" := {[ 0%nat := knightEast0 ]} ]>
                    ({[ "north" := ∅; "south" := ∅; "east" := ∅ ]}
                     : gmap string (gmap nat Image))) !! "south" = Some ∅)
    by (vm_compute; reflexivity).
  split; [exact Hname | split; [exact Hdir|]].
  exact (proj1 (frameOnload_stores_frame joinedClient "knight" "south" 0 img _ _
                  Hname Hdir)).
Defined.

End Assets.

(** ** Emotes never outlive their duration *)

Section Expiry.

Implicit Types (s : GameClient).








End Expiry.

(** ** World state store: roster, identity and position *)

Section Roster.

Implicit Types (s : GameClient).







Lemma myPlayerId_sendEmote emote s : myPlayerId (sendEmote emote s) = myPlayerId s.
Proof. unfold sendEmote, showEmote, socketSend. by repeat case_match. Qed.

(** Only a successful join changes the local identity. *)
Lemma myPlayerId_dispatch (e : Event) s :
  (forall joined roster looks error,
     e <> SocketMessage (InJoinGame true joined roster looks error)) ->
  myPlayerId (dispatch e s) = myPlayerId s.
Proof.
  intros Hne. destruct e; cbn [dispatch].
  - unfold onKeyDown.
    assert (Hdown : myPlayerId (handleKeyDown code s) = myPlayerId s).
    { unfold handleKeyDown, jsRead, sendMoveCommand, sendMoveCommandMember, socketSend. by repeat case_match. }
    destruct (emoteShortcut_cases code (handleKeyDown code s))
      as [->|(emote & _ & _ & ->)]; by rewrite ?myPlayerId_sendEmote.
  - unfold handleKeyUp, jsRead, sendStopCommand, socketSend. by repeat case_match.
  - apply myPlayerId_sendEmote.
  - unfold chatInputEnter, sendChatMessage, addChatMessage, socketSend.
    by repeat case_match.
  - unfold createCustomAvatar, rejoinWithCustomAvatar, socketSend.
    by repeat case_match.
  - unfold socketOnopen, joinGame, socketSend. cbn. by repeat case_match.
  - unfold socketOnclose. by repeat case_match.
  - destruct message as [[] joined roster looks error|moved|player avatar|playerId
                          |playerId emote|username text|action];
      cbn [handleMessage]; try done.
    + by destruct (Hne joined roster looks error).
    + unfold updateCamera, updateMyPosition, jsRead. by repeat case_match.
    + unfold addChatMessage, loadAvatarImage. by repeat case_match.
    + by destruct (jsRead (players s) playerId).
  - done.
  - unfold worldImageOnload. by repeat case_match.
  - done.
  - by rewrite advanceTo_frame.
Qed.

(** X16.  The client has no identity until a join succeeds: after [init]
    and any run of events without a successful join answer the local id
    is absent, whatever else arrived, a rejected join included. *)
Theorem no_identity_before_join (events : list Event) (innerWidth innerHeight clock : Z) :
  (forall joined roster looks error,
     ~ In (SocketMessage (InJoinGame true joined roster looks error)) events) ->
  myPlayerId (run events (init innerWidth innerHeight (constructed clock))) = None.
Proof.
  intros Hno.
  assert (Hgen : forall s, myPlayerId (run events s) = myPlayerId s).
  { induction events as [|e events IH]; intros s; [done|].
    cbn [run fold_left]. unfold run in IH. rewrite IH.
    - apply myPlayerId_dispatch. intros joined roster looks error ->.
      apply (Hno joined roster looks error). by left.
    - intros joined roster looks error Hin.
      apply (Hno joined roster looks error). by right. }
  by rewrite Hgen.
Qed.

Lemma no_identity_before_join_witness :
  let events := [ SocketOpened;
                  SocketMessage (InJoinGame false (Some "p1") ∅ ∅ "server full");
                  SocketMessage (InPlayersMoved {[ "p2" := bob ]});
                  EmoteButton "wave" ] in
  (forall joined roster looks error,
     ~ In (SocketMessage (InJoinGame true joined roster looks error)) events)
  /\ myPlayerId (run events (init 800 600 (constructed 0))) = None.
Proof.
  intros events.
  assert (Hno : forall joined roster looks error,
            ~ In (SocketMessage (InJoinGame true joined roster looks error)) events).
  { intros joined roster looks error H.
    repeat (destruct H as [H|H]; [discriminate H|]). exact H. }
  split; [exact Hno|]. exact (no_identity_before_join events 800 600 0 Hno).
Defined.

(** X17.  A [players_moved] message that carries the local player moves
    the focus to the new coordinates and recentres the camera on them,
    clamped as always.  One that leaves the local player out of the
    table leaves the focus where it was, provided the local id names no
    member of [Object.prototype] (the read [players[id]] would find
    it). *)
Theorem players_moved_follows_local_player (s : GameClient)
    (moved : gmap string Player) (i : string) :
  myPlayerId s = Some i ->
  i <> "" ->
  let s' := handleMessage (InPlayersMoved moved) s in
  let width := inject_Z (canvas_width s) in
  let height := inject_Z (canvas_height s) in
  (forall p, moved !! i = Some p ->
     myPosition s' = (pl_x p, pl_y p)
     /\ cam_x (camera s') = Qmax 0 (Qmin (pl_x p - width / 2) (worldSize - width))
     /\ cam_y (camera s') = Qmax 0 (Qmin (pl_y p - height / 2) (worldSize - height)))
  /\ (inheritedName i = false -> moved !! i = None -> players s !! i = None ->
      myPosition s' = myPosition s).
Proof.
  intros Hid Hne s' width height. subst s'. cbn [handleMessage].
  assert (Heqb : String.eqb i "" = false) by (by apply String.eqb_neq).
  split.
  - intros p Hp. unfold updateMyPosition.
    cbn [myPlayerId set_players players]. rewrite Hid, Heqb.
    rewrite (jsRead_own _ _ _ (lookup_union_Some_l _ _ _ _ Hp)). done.
  - intros Hplain Hnone Habsent. unfold updateMyPosition.
    cbn [myPlayerId set_players players]. rewrite Hid, Heqb.
    rewrite jsRead_undefined; [done| |done].
    rewrite lookup_union_r by done. exact Habsent.
Qed.

Lemma players_moved_follows_local_player_witness :
  let there := {| pl_id := "p1"; pl_username := "Eve"; pl_x := 1500; pl_y := 40;
                  pl_facing := "east"; pl_animationFrame := Some 2%nat;
                  pl_avatar := "knight" |} in
  let moved : gmap string Player := {[ "p1" := there ]} in
  myPlayerId joinedClient = Some "p1"
  /\ "p1" <> ""
  /\ moved !! "p1" = Some there
  /\ myPosition (handleMessage (InPlayersMoved moved) joinedClient) = (1500%Q, 40%Q).
Proof.
  intros there moved.
  assert (Hid : myPlayerId joinedClient = Some "p1") by reflexivity.
  assert (Hne : "p1" <> "") by discriminate.
  assert (Hp : moved !! "p1" = Some there) by reflexivity.
  split; [exact Hid | split; [exact Hne | split; [exact Hp|]]].
  exact (proj1 (proj1 (players_moved_follows_local_player joinedClient moved "p1"
                         Hid Hne) there Hp)).
Defined.

(** X18.  A player who joins under a fresh id and then leaves is gone
    without trace from the entity table; the avatar it brought stays
    registered, and the newest chat line reports the departure by
    name. *)
Theorem player_joined_then_left (s : GameClient) (player : Player) (avatar : Avatar) :
  players s !! pl_id player = None ->
  let s1 := handleMessage (InPlayerJoined player avatar) s in
  let s2 := handleMessage (InPlayerLeft (pl_id player)) s1 in
  players s1 !! pl_id player = Some player
  /\ players s2 = players s
  /\ avatars s2 !! av_name avatar = Some avatar
  /\ last (chatMessages s2)
     = Some {| cm_username := "System";
               cm_message := pl_username player ++ " left the game.";
               cm_timestamp := now s; cm_type := system |}.
Proof.
  intros Hfresh s1 s2.
  assert (H1 : players s1 = <[ pl_id player := player ]> (players s)
               /\ avatars s1 = <[ av_name avatar := avatar ]> (avatars s)
               /\ now s1 = now s).
  { subst s1. cbn [handleMessage]. unfold addChatMessage, loadAvatarImage.
    by repeat case_match. }
  destruct H1 as (Hp1 & Ha1 & Hn1).
  assert (Hin : players s1 !! pl_id player = Some player)
    by (by rewrite Hp1, lookup_insert_eq).
  split; [exact Hin|]. subst s2. cbn [handleMessage].
  rewrite (jsRead_own _ _ _ Hin).
  split; [|split].
  - cbn [addChatMessage set_chatMessages set_activeEmotes set_players players].
    by rewrite Hp1, delete_insert_eq, delete_id.
  - cbn [addChatMessage set_chatMessages set_activeEmotes set_players avatars].
    by rewrite Ha1, lookup_insert_eq.
  - rewrite addChatMessage_last. cbn [set_activeEmotes set_players now].
    by rewrite Hn1.
Qed.

Lemma player_joined_then_left_witness :
  let carol := {| pl_id := "p3"; pl_username := "Carol"; pl_x := 10; pl_y := 10;
                  pl_facing := "north"; pl_animationFrame := None;
                  pl_avatar := "knight" |} in
  players joinedClient !! pl_id carol = None
  /\ players (handleMessage (InPlayerLeft "p3")
                (handleMessage (InPlayerJoined carol knight) joinedClient))
     = players joinedClient.
Proof.
  intros carol.
  assert (Hfresh : players joinedClient !! pl_id carol = None) by reflexivity.
  split; [exact Hfresh|].
  exact (proj1 (proj2 (player_joined_then_left joinedClient carol knight Hfresh))).
Defined.

End Roster.

(** ** Renderer: what a pass paints *)

Section Painting.

Implicit Types (s : GameClient).

Lemma paintFrom_drawEmote (m : Matrix) (stack : list Matrix) playerId (x y : Q) s
    (rest : list CtxCall) :
  paintFrom m stack (drawEmote playerId x y s ++ rest)
  = (match drawEmote playerId x y s with
     | [] => []
     | _ => List.filter (fun entry => isDrawing (snd entry))
              (map (fun c => (m, c)) (drawEmote playerId x y s))
     end ++ paintFrom m stack rest)%list.
Proof.
  unfold drawEmote. destruct (activeEmotes s !! playerId); reflexivity.
Qed.

(** X19.  An avatar is painted whole or not at all.  Either [drawAvatar]
    paints nothing, neither name nor emote, or it paints the sprite,
    flipped exactly when the entity faces west, then the name twice
    (outline and fill) untransformed and centred on the entity's screen
    x, then the emote if there is one. *)
Theorem drawAvatar_paints_whole (p : Player) (s : GameClient) :
  let screenX := (pl_x p - cam_x (camera s))%Q in
  let screenY := (pl_y p - cam_y (camera s))%Q in
  paint (drawAvatar p s) = []
  \/ exists img dx dw,
       paint (drawAvatar p s)
       = ((if String.eqb (pl_facing p) "west" then hflip else identity,
           DrawImage img dx (screenY - 32 / 2) dw 32)
          :: (identity, StrokeText (pl_username p) screenX (Flat (screenY - 32 / 2 - 5)))
          :: (identity, FillText (pl_username p) screenX (Flat (screenY - 32 / 2 - 5)))
          :: paint (drawEmote (pl_id p) screenX (screenY - 32 / 2 - 20) s))%list.
Proof.
  intros screenX screenY. unfold drawAvatar. fold screenX screenY.
  destruct (_ || _); [by left|].
  destruct (avatars s !! pl_avatar p); [|by left].
  destruct (avatarImages s !! pl_avatar p) as [directions|]; [|by left].
  destruct (directions !! _) as [frames|]; [|by left].
  destruct (frames !! _) as [img|]; [|by left].
  right. destruct (String.eqb (pl_facing p) "west").
  - eexists img, _, _. unfold paint. cbn [app paintFrom isDrawing]. reflexivity.
  - eexists img, _, _. unfold paint. cbn [app paintFrom isDrawing]. reflexivity.
Qed.

(** The calls of one avatar leave the transform as they found it. *)
Lemma paint_drawAvatar_app (p : Player) s (rest : list CtxCall) :
  paintFrom identity [] (drawAvatar p s ++ rest)
  = (paint (drawAvatar p s) ++ paintFrom identity [] rest)%list.
Proof.
  unfold paint, drawAvatar, drawEmote.
  destruct (_ || _); [done|].
  destruct (avatars s !! pl_avatar p); [|done].
  destruct (avatarImages s !! pl_avatar p) as [directions|]; [|done].
  destruct (directions !! _) as [frames|]; [|done].
  destruct (frames !! _) as [img|]; [|done].
  destruct (String.eqb (pl_facing p) "west");
    destruct (activeEmotes s !! pl_id p);
    cbn [app paintFrom isDrawing]; reflexivity.
Qed.

Lemma paint_drawAvatar_upright (p : Player) s :
  Forall uprightEntry (paint (drawAvatar p s)).
Proof.
  unfold paint, drawAvatar, drawEmote.
  destruct (_ || _); [constructor|].
  destruct (avatars s !! pl_avatar p); [|constructor].
  destruct (avatarImages s !! pl_avatar p) as [directions|]; [|constructor].
  destruct (directions !! _) as [frames|]; [|constructor].
  destruct (frames !! _) as [img|]; [|constructor].
  destruct (String.eqb (pl_facing p) "west");
    destruct (activeEmotes s !! pl_id p);
    cbn [app paintFrom isDrawing];
    repeat (constructor; [first [reflexivity | by left | by right]|]);
    constructor.
Qed.

(** X20.  In a whole render pass the flip is confined to sprites.  The
    background, every name and every emote are painted untransformed, and
    every sprite is painted untransformed or flipped: the flip of a
    west-facing sprite never reaches what is drawn after it. *)
Theorem render_flip_confined (s : GameClient) :
  Forall uprightEntry (paint (render s)).
Proof.
  unfold render. destruct (worldImage s) as [img|]; [|constructor].
  unfold paint. cbn [paintFrom isDrawing].
  constructor; [reflexivity|]. constructor; [reflexivity|].
  unfold drawAvatars. induction (map_to_list (players s)) as [|entry l IH].
  - constructor.
  - cbn [flat_map]. rewrite paint_drawAvatar_app. apply Forall_app. split; [|exact IH].
    apply paint_drawAvatar_upright.
Qed.

(** X21.  The opacity set for an emote is never negative; it is 1 at the
    start, at most 1 while the clock is not behind the start, and 0 once
    the emote is a full duration old. *)
Theorem drawEmote_opacity (s : GameClient) (playerId : string) (x y : Q)
    (emote : Emote) :
  activeEmotes s !! playerId = Some emote ->
  exists alpha,
    In (SetGlobalAlpha alpha) (drawEmote playerId x y s)
    /\ (0 <= alpha)%Q
    /\ ((em_startTime emote <= now s)%Z -> (alpha <= 1)%Q)
    /\ (now s = em_startTime emote -> (alpha == 1)%Q)
    /\ ((em_startTime emote + 3000 <= now s)%Z -> (alpha == 0)%Q).
Proof.
  intros Hshown. unfold drawEmote. rewrite Hshown.
  eexists. split; [right; left; reflexivity|].
  set (d := (now s - em_startTime emote)%Z).
  assert (Hprogress : (inject_Z d / inject_Z emoteDuration == d # 3000)%Q).
  { unfold Qeq, Qdiv, Qmult, Qinv, inject_Z, emoteDuration. cbn. lia. }
  split; [apply Q.le_max_l|]. split; [|split].
  - intros Hle. apply Q.max_lub; [done|]. rewrite Hprogress.
    unfold Qle, Qminus, Qplus, Qopp. cbn. subst d. lia.
  - intros Heq. rewrite Hprogress. subst d. rewrite Heq, Z.sub_diag.
    apply Qeq_trans with (1 - (0 # 3000))%Q; [|reflexivity].
    apply Q.max_r. unfold Qle. cbn. lia.
  - intros Hold. rewrite Hprogress. apply Q.max_l.
    unfold Qle, Qminus, Qplus, Qopp. cbn. subst d. lia.
Qed.

Lemma drawEmote_opacity_witness :
  activeEmotes emoteTwice !! "p1" = Some {| em_type := "dance"; em_startTime := 1000 |}
  /\ exists alpha,
       In (SetGlobalAlpha alpha) (drawEmote "p1" 0 0 emoteTwice) /\ (0 <= alpha)%Q.
Proof.
  assert (Hshown : activeEmotes emoteTwice !! "p1"
                   = Some {| em_type := "dance"; em_startTime := 1000 |})
    by (vm_compute; reflexivity).
  split; [exact Hshown|].
  destruct (drawEmote_opacity emoteTwice "p1" 0 0 _ Hshown) as (alpha & Hin & Hpos & _).
  exists alpha. split; [exact Hin | exact Hpos].
Defined.

(** X22.  After a resize of a client whose map object exists, a render pass
    clears the new canvas and paints the map unscaled: the source
    rectangle has the size of the canvas, like the destination, and when
    the canvas does not exceed the world it lies inside the world. *)
Theorem resize_repaints_unscaled (s : GameClient) (innerWidth innerHeight : Z)
    (img : Image) :
  worldImage s = Some img ->
  let s' := onResize innerWidth innerHeight s in
  let width := inject_Z innerWidth in
  let height := inject_Z innerHeight in
  exists sx sy,
    render s'
    = ClearRect 0 0 width height
      :: DrawImageSub img sx sy width height 0 0 width height
      :: drawAvatars s'
    /\ (0 <= sx)%Q /\ (0 <= sy)%Q
    /\ ((width <= worldSize)%Q -> (sx + width <= worldSize)%Q)
    /\ ((height <= worldSize)%Q -> (sy + height <= worldSize)%Q).
Proof.
  intros Himg s' width height. subst s'. unfold render, onResize.
  cbn [updateCamera set_camera set_canvas worldImage canvas_width canvas_height
       camera cam_x cam_y cam_width cam_height myPosition].
  rewrite Himg. eexists _, _. split; [reflexivity|].
  split; [apply Q.le_max_l|]. split; [apply Q.le_max_l|]. split.
  - intros Hw. fold width.
    destruct (camera_axis_bounds (fst (myPosition s) - width / 2) (worldSize - width))
      as [_ Hhi]; [by apply room_nonneg|].
    apply Qplus_le_l with (z := (- width)%Q). ring_simplify.
    eapply Qle_trans; [exact Hhi|]. apply Qle_lteq. right. ring.
  - intros Hh. fold height.
    destruct (camera_axis_bounds (snd (myPosition s) - height / 2) (worldSize - height))
      as [_ Hhi]; [by apply room_nonneg|].
    apply Qplus_le_l with (z := (- height)%Q). ring_simplify.
    eapply Qle_trans; [exact Hhi|]. apply Qle_lteq. right. ring.
Qed.

Lemma resize_repaints_unscaled_witness :
  exists img sx sy,
    worldImage joinedClient = Some img
    /\ render (onResize 1024 768 joinedClient)
       = ClearRect 0 0 (inject_Z 1024) (inject_Z 768)
         :: DrawImageSub img sx sy (inject_Z 1024) (inject_Z 768) 0 0
              (inject_Z 1024) (inject_Z 768)
         :: drawAvatars (onResize 1024 768 joinedClient).
Proof.
  exists {| img_src := "world.jpg"; img_complete := true;
            img_width := 2048; img_height := 2048 |}.
  assert (Himg : worldImage joinedClient
                 = Some {| img_src := "world.jpg"; img_complete := true;
                           img_width := 2048; img_height := 2048 |})
    by (vm_compute; reflexivity).
  destruct (resize_repaints_unscaled joinedClient 1024 768 _ Himg)
    as (sx & sy & Hrender & _).
  exists sx, sy. split; [exact Himg | exact Hrender].
Defined.






End Painting.
